(** * Project-Webont: roster dashboard (src/index.ts, src/interfaces.ts)

    A shallow embedding of the Express application: the session guards,
    the login and registration handlers, the bootstrap seeder, the roster
    query (filter and sort), the edit operation and the unit detail view.

    Conventions of the embedding
    - A MongoDB collection is the list of its documents in natural
      (insertion) order; [findOne] returns the first match, [insertOne]
      appends, [updateOne] rewrites the first match.  Once the client
      is connected the storage operations succeed, so the [catch]
      branches of the routes (status 500) do not occur; the seeder's
      [catch] is modelled for a failed connect and a failed fetch.
    - A JavaScript string is the [string] of its UTF-8 bytes (request
      parameters and stored names are well-formed).  [toLowerCase] is
      the conversion of the standard: written out for ASCII and for
      the sigma at the end of a word, and reading the mapping and the
      properties of the characters beyond ASCII from an instance of
      [Js.Unicode].  Strings are compared in the order of their UTF-16
      code units.
    - [Array.prototype.sort] is the algorithm of the engine for arrays
      of fewer than 64 elements: the first run, then binary insertion.
      For a comparator that is consistent on the elements the result
      is the one of every stable sort, at every length.
    - [insertMany] is ordered and the collection has the unique index
      on [_id]: a document whose [_id] is taken ends the insert.
    - A JavaScript number is an integer or NaN ([number]): the ages of
      the dataset are integers and [parseInt] yields an integer-valued
      number or NaN.
    - Library functions whose result the handlers only pass along
      ([bcrypt.hash], [bcrypt.compare], [parseInt], the conversion of a
      string to a number) are section variables.
    - Form and query fields have the types the source casts them to;
      the fields of a posted form are present strings, except the
      check box of the edit form.
    - The session is [req.session.user]; the cookie and its expiry are
      the business of express-session. *)

From Stdlib Require Import List String Ascii ZArith Bool Arith Lia.
From Stdlib Require Import Sorting.Sorted Sorting.Permutation.
From Stdlib Require Import Structures.OrderedTypeEx.
Import ListNotations.

Local Open Scope string_scope.
Local Open Scope list_scope.

(* ================================================================= *)
(** ** The fragment of ECMAScript the handlers use *)

Module Js.

(** [number]: integer-valued numbers and NaN. *)
Inductive number : Type :=
| NaN : number
| Num (z : Z) : number.

(** [x < y] on numbers; a comparison with NaN is false. *)
Definition num_lt (x y : number) : bool :=
  match x, y with
  | Num a, Num b => (a <? b)%Z
  | _, _ => false
  end.

(** The primitive values that reach a relational operator. *)
Inductive value : Type :=
| VUndefined : value
| VBoolean (b : bool) : value
| VNumber (n : number) : value
| VString (s : string) : value
| VArray (l : list string) : value.

(** *** Strings

    A string is kept as the bytes of its UTF-8 form, so that a literal
    of this file is the string it shows.  A character is a byte below
    128, or a byte from 128 on with the continuation bytes that follow
    it. *)

Definition is_ascii_byte (b : ascii) : bool := (nat_of_ascii b <? 128)%nat.

Definition continuation (b : ascii) : bool :=
  (128 <=? nat_of_ascii b)%nat && (nat_of_ascii b <? 192)%nat.

Definition starts_continued (s : string) : bool :=
  match s with
  | String b _ => continuation b
  | EmptyString => false
  end.

(** The characters of a string, in order. *)
Fixpoint chars (s : string) : list string :=
  match s with
  | EmptyString => []
  | String b s' =>
      match chars s' with
      | c :: cs =>
          if negb (is_ascii_byte b) && starts_continued c
          then String b c :: cs
          else String b EmptyString :: c :: cs
      | [] => [String b EmptyString]
      end
  end.

(** The character of one ASCII byte. *)
Definition ascii_char (c : string) : option ascii :=
  match c with
  | String b EmptyString => if is_ascii_byte b then Some b else None
  | _ => None
  end.

(** The lower-case mapping of the ASCII letters. *)
Definition lower_char (c : ascii) : ascii :=
  let n := nat_of_ascii c in
  if (65 <=? n)%nat && (n <=? 90)%nat then ascii_of_nat (n + 32) else c.

Definition ascii_letter (b : ascii) : bool :=
  let n := nat_of_ascii b in
  ((65 <=? n)%nat && (n <=? 90)%nat) || ((97 <=? n)%nat && (n <=? 122)%nat).

(** The ASCII characters that the Unicode tables call case-ignorable:
    apostrophe, full stop, colon, circumflex and grave accent. *)
Definition ascii_ignorable (b : ascii) : bool :=
  let n := nat_of_ascii b in
  (n =? 39)%nat || (n =? 46)%nat || (n =? 58)%nat || (n =? 94)%nat || (n =? 96)%nat.

(** The Unicode character data beyond ASCII that the lower-case
    conversion reads: the lower-case mapping of a character and the
    properties Cased and Case_Ignorable. *)
Class Unicode : Type := {
  lower_beyond : string -> string;
  cased_beyond : string -> bool;
  ignorable_beyond : string -> bool
}.

Section Case.

Context {U : Unicode}.

Definition lower_of (c : string) : string :=
  match ascii_char c with
  | Some b => String (lower_char b) EmptyString
  | None => lower_beyond c
  end.

Definition cased (c : string) : bool :=
  match ascii_char c with
  | Some b => ascii_letter b
  | None => cased_beyond c
  end.

Definition case_ignorable (c : string) : bool :=
  match ascii_char c with
  | Some b => ascii_ignorable b
  | None => ignorable_beyond c
  end.

(** Walking away from a character: the case-ignorable characters are
    passed over, the first other character decides. *)
Fixpoint cased_past_ignorables (l : list string) : bool :=
  match l with
  | [] => false
  | c :: l' => if case_ignorable c then cased_past_ignorables l' else cased c
  end.

(** The condition Final_Sigma, for the characters [before] a capital
    sigma (nearest first) and [after] it. *)
Definition final_sigma (before after : list string) : bool :=
  cased_past_ignorables before && negb (cased_past_ignorables after).

Fixpoint lower_chars (before l : list string) : list string :=
  match l with
  | [] => []
  | c :: l' =>
      (if (c =? "Σ")%string
       then if final_sigma before l' then "ς"%string else "σ"%string
       else lower_of c) :: lower_chars (c :: before) l'
  end.

(** [String.prototype.toLowerCase]: every character is replaced by its
    lower-case mapping; a capital sigma becomes the final small sigma
    where it ends a word. *)
Definition toLowerCase (s : string) : string :=
  String.concat EmptyString (lower_chars [] (chars s)).

End Case.

(** [s.includes(t)]: [t] occurs in [s] at some position. *)
Fixpoint includes (s t : string) : bool :=
  String.prefix t s ||
  match s with
  | EmptyString => false
  | String _ s' => includes s' t
  end.

(** [Array.prototype.join(",")], which [ToPrimitive] applies to an
    array of strings. *)
Definition join (l : list string) : string := String.concat "," l.

(** The order of the UTF-16 code units, read off the UTF-8 bytes: the
    characters from U+E000 to U+FFFF (first byte 238 or 239) come after
    the characters that take a surrogate pair (first byte 240 and up).
    The two byte values are exchanged with 254 and 255, which no
    character uses. *)
Definition unit_rank (b : ascii) : ascii :=
  let n := nat_of_ascii b in
  if (n =? 238)%nat then ascii_of_nat 254
  else if (n =? 239)%nat then ascii_of_nat 255
  else if (n =? 254)%nat then ascii_of_nat 238
  else if (n =? 255)%nat then ascii_of_nat 239
  else b.

Fixpoint code_unit_key (s : string) : string :=
  match s with
  | EmptyString => EmptyString
  | String b s' => String (unit_rank b) (code_unit_key s')
  end.

Section Relational.

(** [StringToNumber] of the standard: only consulted when a string
    meets a number or a boolean. *)
Variable StringToNumber : string -> number.

Definition ToNumber (v : value) : number :=
  match v with
  | VUndefined => NaN
  | VBoolean b => Num (if b then 1 else 0)
  | VNumber n => n
  | VString s => StringToNumber s
  | VArray l => StringToNumber (join l)
  end.

(** [ToPrimitive]: an array becomes the string of its elements. *)
Definition ToPrimitive (v : value) : value :=
  match v with
  | VArray l => VString (join l)
  | _ => v
  end.

(** [x < y] (IsLessThan): two strings are compared by code units,
    anything else numerically. *)
Definition lt (x y : value) : bool :=
  match ToPrimitive x, ToPrimitive y with
  | VString a, VString b => String.ltb (code_unit_key a) (code_unit_key b)
  | px, py => num_lt (ToNumber px) (ToNumber py)
  end.

(** [x > y] is [y < x]. *)
Definition gt (x y : value) : bool := lt y x.

End Relational.

(** [Array.prototype.sort(cmp)] as the engine of Node.js carries it out
    (V8 from version 7.0, Node.js from version 11:
    third_party/v8/builtins/array-sort.tq).  The first run is
    taken from the front of the array: the elements that follow one
    another without a descent, or, when the second element compares
    below the first, the elements that keep descending, and that run is
    reversed.  Every later element is put into the run at the place a
    binary search finds for it.  An array of fewer than 64 elements is
    sorted in this one pass; a longer one is cut into several such runs
    that are merged, which gives the same arrangement whenever the
    comparator is consistent, the sort being stable. *)
Section Sort.
Context {A : Type} (cmp : A -> A -> Z).

(** The loop of CountAndMakeRun: the run ends in front of the first
    element that breaks the direction. *)
Fixpoint extend_run (descending : bool) (previous : A) (l : list A)
  : list A * list A :=
  match l with
  | [] => ([], [])
  | current :: l' =>
      let order := cmp current previous in
      if (if descending then 0 <=? order else order <? 0)%Z then ([], l)
      else let (run, rest) := extend_run descending current l' in
           (current :: run, rest)
  end.

Definition count_and_make_run (l : list A) : list A * list A :=
  match l with
  | low :: next :: l' =>
      let descending := (cmp next low <? 0)%Z in
      let (run, rest) := extend_run descending next l' in
      let whole := low :: next :: run in
      (if descending then rev whole else whole, rest)
  | _ => (l, [])
  end.

(** The binary search of BinaryInsertionSort: the place of [pivot] in
    [work] between [left] and [right]. *)
Fixpoint search (fuel : nat) (pivot : A) (work : list A) (left right : nat)
  : nat :=
  match fuel with
  | O => left
  | S fuel' =>
      if (left <? right)%nat then
        let mid := (left + (right - left) / 2)%nat in
        match nth_error work mid with
        | Some x => if (cmp pivot x <? 0)%Z
                    then search fuel' pivot work left mid
                    else search fuel' pivot work (S mid) right
        | None => left
        end
      else left
  end.

Definition binary_insert (work : list A) (pivot : A) : list A :=
  let left := search (List.length work) pivot work 0 (List.length work) in
  firstn left work ++ pivot :: skipn left work.

Definition sort (l : list A) : list A :=
  let (run, rest) := count_and_make_run l in
  fold_left binary_insert rest run.

End Sort.

End Js.

(* ================================================================= *)
(** ** Data model (src/interfaces.ts) *)

(** An [ObjectId] is kept as its hexadecimal rendering, which is what
    [toString] and the relational operators see. *)
Definition ObjectId : Type := string.

Inductive Role : Type := ADMIN | USER.

Definition Role_eqb (a b : Role) : bool :=
  match a, b with
  | ADMIN, ADMIN | USER, USER => true
  | _, _ => false
  end.

Module Unit.
Record t : Type := mk {
  id : string;
  name : string;
  emblemUrl : string;
  motto : string;
  isElite : bool;
  foundedYear : Js.number
}.
End Unit.

Module Character.
Record t : Type := mk {
  _id : option ObjectId;
  id : string;
  name : string;
  age : Js.number;
  description : string;
  isActive : bool;
  rank : string;
  birthDate : string;
  imageUrl : string;
  weapons : list string;
  unit : Unit.t
}.

(** [c[f]] for a property name [f].  The embedded unit is an object,
    whose primitive is the fixed string of plain objects; a name that
    is no field of the record reads as [undefined] (an inherited
    property would read the same object for every record, which the
    comparator cannot tell from [undefined]). *)
Definition get (c : t) (f : string) : Js.value :=
  if f =? "_id" then
    match _id c with Some o => Js.VString o | None => Js.VUndefined end
  else if f =? "id" then Js.VString (id c)
  else if f =? "name" then Js.VString (name c)
  else if f =? "age" then Js.VNumber (age c)
  else if f =? "description" then Js.VString (description c)
  else if f =? "isActive" then Js.VBoolean (isActive c)
  else if f =? "rank" then Js.VString (rank c)
  else if f =? "birthDate" then Js.VString (birthDate c)
  else if f =? "imageUrl" then Js.VString (imageUrl c)
  else if f =? "weapons" then Js.VArray (weapons c)
  else if f =? "unit" then Js.VString "[object Object]"
  else Js.VUndefined.

Definition with_id (o : ObjectId) (c : t) : t :=
  mk (Some o) (id c) (name c) (age c) (description c) (isActive c)
     (rank c) (birthDate c) (imageUrl c) (weapons c) (unit c).

(** [{ $set: { name, age, description, isActive } }] *)
Definition set (name' : string) (age' : Js.number) (description' : string)
           (isActive' : bool) (c : t) : t :=
  mk (_id c) (id c) name' age' description' isActive'
     (rank c) (birthDate c) (imageUrl c) (weapons c) (unit c).
End Character.

Module User.
Record t : Type := mk {
  _id : option ObjectId;
  username : string;
  password : string;
  role : Role
}.

Definition with_id (o : ObjectId) (u : t) : t :=
  mk (Some o) (username u) (password u) (role u).
End User.

(** A document of the [emblems] collection: the source leaves it
    untyped and only selects on [id]. *)
Module Emblem.
Record t : Type := mk {
  id : string;
  fields : list (string * Js.value)
}.
End Emblem.

(** [SessionData.user] *)
Module SessionUser.
Record t : Type := mk {
  _id : option string;
  username : string;
  role : Role
}.
End SessionUser.

(** [req.session.user]: absent or the identity triple. *)
Definition Session : Type := option SessionUser.t.

(* ================================================================= *)
(** ** The database *)

Record Db : Type := mkDb {
  users : list User.t;
  characters : list Character.t;
  emblems : list Emblem.t
}.

Definition set_users (f : list User.t -> list User.t) (db : Db) : Db :=
  mkDb (f (users db)) (characters db) (emblems db).

Definition set_characters (f : list Character.t -> list Character.t) (db : Db) : Db :=
  mkDb (users db) (f (characters db)) (emblems db).

(** [findOne(q)]: the first document that satisfies [q]. *)
Definition findOne {A : Type} (q : A -> bool) (col : list A) : option A :=
  List.find q col.

(** [insertOne(doc)]: the driver gives the document a fresh [_id] and
    appends it. *)
Definition insertOne {A : Type} (doc : A) (col : list A) : list A :=
  col ++ [doc].

(** [updateOne(q, upd)]: the first document that satisfies [q] is
    rewritten, nothing else. *)
Fixpoint updateOne {A : Type} (q : A -> bool) (upd : A -> A) (col : list A) : list A :=
  match col with
  | [] => []
  | d :: col' => if q d then upd d :: col' else d :: updateOne q upd col'
  end.

(** [insertMany(docs)] gives every document without [_id] a fresh one,
    [fresh i] for the document at position [i], and then inserts the
    documents one after the other ([insert_ordered] below). *)
Fixpoint assign_ids (fresh : nat -> ObjectId) (i : nat) (docs : list Character.t)
  : list Character.t :=
  match docs with
  | [] => []
  | c :: docs' =>
      match Character._id c with
      | Some _ => c
      | None => Character.with_id (fresh i) c
      end :: assign_ids fresh (S i) docs'
  end.

(** The unique index on [_id]: a document is refused when its [_id] is
    the one of a stored document. *)
Definition same_oid (x y : option ObjectId) : bool :=
  match x, y with
  | Some a, Some b => (a =? b)%string
  | _, _ => false
  end.

Definition holds_oid (col : list Character.t) (d : Character.t) : bool :=
  existsb (fun c => same_oid (Character._id c) (Character._id d)) col.

(** An ordered bulk insert: the documents are inserted in their order;
    the first one that is refused ends the insert, the documents in
    front of it stay inserted.  The boolean says whether all went in. *)
Fixpoint insert_ordered (col docs : list Character.t) : list Character.t * bool :=
  match docs with
  | [] => (col, true)
  | d :: docs' =>
      if holds_oid col d then (col, false)
      else insert_ordered (col ++ [d]) docs'
  end.

(* ================================================================= *)
(** ** Requests and responses *)

(** What [res.render] is given, one constructor per view used here. *)
Inductive UnitData : Type :=
| OfEmblem (e : Emblem.t)
| OfMember (u : Unit.t).

Inductive View : Type :=
| view_login (error : option string)
| view_register (error : option string)
| view_error (message : string)
| view_index (chars : list Character.t) (search sortField : string) (sortOrder : Z)
| view_unit_detail (unit : UnitData) (members : list Character.t).

(** A response.  [Render] carries [res.locals.user], which the
    middleware of line 40 copies from the session before any route
    runs. *)
Inductive Response : Type :=
| Redirect (location : string)
| Render (status : nat) (locals_user : Session) (v : View)
| Send (status : nat) (text : string).

(** [req.query] of the listing: each parameter is absent or a string. *)
Record Query : Type := mkQuery {
  q_search : option string;
  q_sort : option string;
  q_order : option string
}.

Definition no_query : Query := mkQuery None None None.

Record Request (B : Type) : Type := mkRequest {
  session : Session;
  params_id : string;
  query : Query;
  body : B
}.
Arguments mkRequest {B} _ _ _ _.
Arguments session {B} _.
Arguments params_id {B} _.
Arguments query {B} _.
Arguments body {B} _.

(** What a route leaves behind: the database, the session and the
    response sent. *)
Record Effect : Type := mkEffect {
  db_after : Db;
  session_after : Session;
  response : Response
}.

(** [x || d] for an optional string: absent and empty are falsy. *)
Definition or_else (x : option string) (d : string) : string :=
  match x with
  | Some s => if s =? "" then d else s
  | None => d
  end.

(** [x === s] for an optional string. *)
Definition strict_eq (x : option string) (s : string) : bool :=
  match x with
  | Some t => t =? s
  | None => false
  end.

(* ================================================================= *)
(** ** Security middleware (lines 99-113) *)

(** A middleware either calls [next()] or answers itself. *)
Inductive Outcome : Type :=
| Next
| Answer (r : Response).

Definition Middleware : Type := Session -> Outcome.

Definition requireLogin : Middleware := fun s =>
  match s with
  | Some _ => Next
  | None => Answer (Redirect "/login")
  end.

Definition requireAdmin : Middleware := fun s =>
  match s with
  | Some u =>
      if Role_eqb (SessionUser.role u) ADMIN then Next
      else Answer (Render 403 s (view_error "Geen toegang. Alleen voor admins."))
  | None => Answer (Render 403 s (view_error "Geen toegang. Alleen voor admins."))
  end.

(** [app.METHOD(path, m1, ..., mk, handler)]: the middlewares run in
    order; the first that answers ends the request with the database and
    the session as they were. *)
Fixpoint route {B : Type} (ms : list Middleware)
         (handler : Request B -> Db -> Effect) (req : Request B) (db : Db) : Effect :=
  match ms with
  | [] => handler req db
  | m :: ms' =>
      match m (session req) with
      | Next => route ms' handler req db
      | Answer r => mkEffect db (session req) r
      end
  end.

(* ================================================================= *)
(** ** Authentication routes (lines 116-166) *)

Record Credentials : Type := mkCredentials {
  username : string;
  password : string
}.

(** What the environment decides during a registration: the salt drawn
    by [bcrypt.hash] and the [_id] drawn by the driver. *)
Record Entropy : Type := mkEntropy {
  salt : string;
  oid : ObjectId
}.

Definition by_username (name : string) (u : User.t) : bool :=
  User.username u =? name.

Definition get_login {B : Type} (req : Request B) (db : Db) : Effect :=
  match session req with
  | Some _ => mkEffect db (session req) (Redirect "/characters")
  | None => mkEffect db (session req) (Render 200 (session req) (view_login None))
  end.

Definition get_register {B : Type} (req : Request B) (db : Db) : Effect :=
  match session req with
  | Some _ => mkEffect db (session req) (Redirect "/characters")
  | None => mkEffect db (session req) (Render 200 (session req) (view_register None))
  end.

Section Bcrypt.

(** [bcrypt.compare(password, hash)] *)
Variable compare : string -> string -> bool.
(** [bcrypt.hash(password, rounds)] with the salt it draws. *)
Variable hash : string -> nat -> string -> string.

Definition post_login (req : Request Credentials) (db : Db) : Effect :=
  let user := findOne (by_username (username (body req))) (users db) in
  match user with
  | Some u =>
      if compare (password (body req)) (User.password u) then
        mkEffect db
          (Some (SessionUser.mk (User._id u) (User.username u) (User.role u)))
          (Redirect "/characters")
      else
        mkEffect db (session req)
          (Render 200 (session req) (view_login (Some "Gebruikersnaam of wachtwoord onjuist.")))
  | None =>
      mkEffect db (session req)
        (Render 200 (session req) (view_login (Some "Gebruikersnaam of wachtwoord onjuist.")))
  end.

Definition post_register (env : Entropy) (req : Request Credentials) (db : Db) : Effect :=
  let existing := findOne (by_username (username (body req))) (users db) in
  match existing with
  | Some _ =>
      mkEffect db (session req)
        (Render 200 (session req) (view_register (Some "Gebruikersnaam bestaat al.")))
  | None =>
      let hashedPassword := hash (password (body req)) 10 (salt env) in
      let doc := User.mk None (username (body req)) hashedPassword USER in
      mkEffect (set_users (insertOne (User.with_id (oid env) doc)) db)
               (session req) (Redirect "/login")
  end.

End Bcrypt.

Definition post_logout {B : Type} (req : Request B) (db : Db) : Effect :=
  mkEffect db None (Redirect "/login").

(* ================================================================= *)
(** ** Roster listing (lines 173-207) *)

Section Roster.

Context {U : Js.Unicode}.
Variable StringToNumber : string -> Js.number.

(** The filter of lines 178-183. *)
Definition filter_step (search : string) (chars : list Character.t)
  : list Character.t :=
  if search =? "" then chars
  else filter (fun c => Js.includes (Js.toLowerCase (Character.name c))
                                    (Js.toLowerCase search)) chars.

(** The two values the comparator looks at (lines 189-195). *)
Definition sort_value (sortField : string) (c : Character.t) : Js.value :=
  let val := Character.get c sortField in
  if sortField =? "unit" then Js.VString (Unit.name (Character.unit c))
  else val.

(** The comparator of lines 188-200. *)
Definition comparator (sortField : string) (sortOrder : Z)
           (a b : Character.t) : Z :=
  let valA := sort_value sortField a in
  let valB := sort_value sortField b in
  if Js.lt StringToNumber valA valB then (-1 * sortOrder)%Z
  else if Js.gt StringToNumber valA valB then (1 * sortOrder)%Z
  else 0%Z.

Definition sort_step (sortField : string) (sortOrder : Z)
           (chars : list Character.t) : list Character.t :=
  Js.sort (comparator sortField sortOrder) chars.

Definition get_characters_handler {B : Type} (req : Request B) (db : Db) : Effect :=
  let chars := characters db in
  let search := or_else (q_search (query req)) "" in
  let chars := filter_step search chars in
  let sortField := or_else (q_sort (query req)) "name" in
  let sortOrder := if strict_eq (q_order (query req)) "desc" then (-1)%Z else 1%Z in
  let chars := sort_step sortField sortOrder chars in
  mkEffect db (session req)
           (Render 200 (session req) (view_index chars search sortField sortOrder)).

Definition get_characters {B : Type} : Request B -> Db -> Effect :=
  route [requireLogin] get_characters_handler.

End Roster.

(* ================================================================= *)
(** ** Edit (lines 225-240) *)

Record EditForm : Type := mkEditForm {
  form_name : string;
  form_age : string;
  form_description : string;
  form_isActive : option string
}.

Definition by_id (i : string) (c : Character.t) : bool :=
  Character.id c =? i.

Section Edit.

(** [parseInt] of the standard. *)
Variable parseInt : string -> Js.number.

Definition post_edit_handler (req : Request EditForm) (db : Db) : Effect :=
  let f := body req in
  let upd := Character.set (form_name f) (parseInt (form_age f))
                           (form_description f)
                           (strict_eq (form_isActive f) "true") in
  mkEffect (set_characters (updateOne (by_id (params_id req)) upd) db)
           (session req)
           (Redirect ("/characters/" ++ params_id req)).

Definition post_edit : Request EditForm -> Db -> Effect :=
  route [requireLogin; requireAdmin] post_edit_handler.

End Edit.

(* ================================================================= *)
(** ** Unit detail (lines 250-271) *)

Definition in_unit (unitId : string) (c : Character.t) : bool :=
  Unit.id (Character.unit c) =? unitId.

Definition emblem_by_id (unitId : string) (e : Emblem.t) : bool :=
  Emblem.id e =? unitId.

(** [unitInfo || (members.length > 0 ? members[0].unit : null)] *)
Definition finalUnitData (unitInfo : option Emblem.t) (members : list Character.t)
  : option UnitData :=
  match unitInfo with
  | Some e => Some (OfEmblem e)
  | None =>
      match members with
      | m :: _ => Some (OfMember (Character.unit m))
      | [] => None
      end
  end.

Definition get_unit_handler {B : Type} (req : Request B) (db : Db) : Effect :=
  let unitId := params_id req in
  let members := filter (in_unit unitId) (characters db) in
  let unitInfo := findOne (emblem_by_id unitId) (emblems db) in
  match finalUnitData unitInfo members with
  | None =>
      mkEffect db (session req) (Send 404 ("Unit " ++ unitId ++ " niet gevonden."))
  | Some u =>
      mkEffect db (session req) (Render 200 (session req) (view_unit_detail u members))
  end.

Definition get_unit {B : Type} : Request B -> Db -> Effect :=
  route [requireLogin] get_unit_handler.

(* ================================================================= *)
(** ** Bootstrap seeder (lines 55-90) *)

(** The body of the [try] block: every step reads and writes the
    database and may throw, which abandons the steps after it and keeps
    the writes made so far. *)
Module Try.

Definition M (A : Type) : Type := Db -> Db * option A.

Definition ret {A : Type} (a : A) : M A := fun db => (db, Some a).

Definition throw {A : Type} : M A := fun db => (db, None).

Definition bind {A B : Type} (m : M A) (k : A -> M B) : M B :=
  fun db =>
    match m db with
    | (db', Some a) => k a db'
    | (db', None) => (db', None)
    end.

Definition gets {A : Type} (f : Db -> A) : M A := fun db => (db, Some (f db)).

Definition modify (f : Db -> Db) : M Datatypes.unit := fun db => (f db, Some tt).

Definition when (b : bool) (m : M Datatypes.unit) : M Datatypes.unit :=
  if b then m else ret tt.

(** [try { m } catch (error) { console.error(...) }] *)
Definition catch {A : Type} (m : M A) : Db -> Db := fun db => fst (m db).

End Try.

Notation "x <- m ;; k" := (Try.bind m (fun x => k))
  (at level 61, m at next level, right associativity).
Notation "m ;;; k" := (Try.bind m (fun _ => k))
  (at level 61, right associativity).

(** What the environment decides during one run of the seeder. *)
Record SeedEnv : Type := mkSeedEnv {
  connect_ok : bool;                       (* [client.connect()] succeeds *)
  admin_entropy : Entropy;
  user_entropy : Entropy;
  fetched : option (list Character.t);     (* the JSON array of [GITHUB_URL] *)
  fresh_ids : nat -> ObjectId
}.

Definition is_none {A : Type} (x : option A) : bool :=
  match x with
  | Some _ => false
  | None => true
  end.

Section Seeder.

Variable hash : string -> nat -> string -> string.

Definition connect (env : SeedEnv) : Try.M Datatypes.unit :=
  if connect_ok env then Try.ret tt else Try.throw.

Definition fetch_json (env : SeedEnv) : Try.M (list Character.t) :=
  match fetched env with
  | Some data => Try.ret data
  | None => Try.throw
  end.

(** [insertMany] refuses an empty batch, and throws when a document
    of the batch is refused, with the documents in front of that one
    inserted. *)
Definition insertMany (env : SeedEnv) (data : list Character.t)
  : Try.M Datatypes.unit :=
  match data with
  | [] => Try.throw
  | _ => fun db =>
           let (col, complete) :=
             insert_ordered (characters db) (assign_ids (fresh_ids env) 0 data) in
           (set_characters (fun _ => col) db, if complete then Some tt else None)
  end.

Definition insert_user (e : Entropy) (name pass : string) (r : Role)
  : Try.M Datatypes.unit :=
  let h := hash pass 10 (salt e) in
  Try.modify (set_users (insertOne (User.with_id (oid e) (User.mk None name h r)))).

Definition seed_body (env : SeedEnv) : Try.M Datatypes.unit :=
  connect env ;;;
  adminExists <- Try.gets (fun db => findOne (by_username "admin") (users db)) ;;
  Try.when (is_none adminExists)
           (insert_user (admin_entropy env) "admin" "admin123" ADMIN) ;;;
  userExists <- Try.gets (fun db => findOne (by_username "user") (users db)) ;;
  Try.when (is_none userExists)
           (insert_user (user_entropy env) "user" "user123" USER) ;;;
  count <- Try.gets (fun db => List.length (characters db)) ;;
  Try.when (count =? 0)%nat
           (data <- fetch_json env ;; insertMany env data).

Definition connectAndSeedDatabase (env : SeedEnv) : Db -> Db :=
  Try.catch (seed_body env).

End Seeder.

(* ================================================================= *)
(** ** Vocabulary of the specification *)

(** The session holds a user identity. *)
Definition authenticated (s : Session) : Prop := exists u, s = Some u.

(** The session holds a user whose role is ADMIN. *)
Definition admin_session (s : Session) : Prop :=
  exists u, s = Some u /\ SessionUser.role u = ADMIN.

Definition is_admin (u : User.t) : bool := Role_eqb (User.role u) ADMIN.

(** Two bytes are the same letter up to case: equal, or an ASCII
    capital and its small letter. *)
Definition capital (a : ascii) : Prop :=
  (65 <= nat_of_ascii a <= 90)%nat.

Definition same_letter (a b : ascii) : Prop :=
  a = b \/
  (capital a /\ nat_of_ascii b = nat_of_ascii a + 32)%nat \/
  (capital b /\ nat_of_ascii a = nat_of_ascii b + 32)%nat.

(** Two strings are equal up to the case of their ASCII letters. *)
Inductive ci_eq : string -> string -> Prop :=
| ci_eq_nil : ci_eq "" ""
| ci_eq_cons a b s t :
    same_letter a b -> ci_eq s t -> ci_eq (String a s) (String b t).

(** Follows the specification's words: [name] contains [s] as a
    case-insensitive substring.  The case is the one of the ASCII
    letters; beyond ASCII the statements use [lower_contains]. *)
Definition contains_ci (name s : string) : Prop :=
  exists pre mid post, name = (pre ++ mid ++ post)%string /\ ci_eq mid s.

(** Lower-casing byte by byte: the ASCII capitals become small, every
    other byte stays. *)
Fixpoint ascii_lower (s : string) : string :=
  match s with
  | EmptyString => EmptyString
  | String c s' => String (Js.lower_char c) (ascii_lower s')
  end.

(** A string of ASCII characters. *)
Fixpoint all_ascii (s : string) : Prop :=
  match s with
  | EmptyString => True
  | String b s' => Js.is_ascii_byte b = true /\ all_ascii s'
  end.

(** Two characters that are equal, or an ASCII capital and its small
    letter. *)
Definition char_ci (c c' : string) : Prop :=
  c = c' \/
  exists a b, c = String a EmptyString /\ c' = String b EmptyString /\
              a <> b /\ same_letter a b.

(** What the test of line 181 asks of a name: lower-cased, it includes
    the lower-cased search string. *)
Definition lower_contains {U : Js.Unicode} (name s : string) : Prop :=
  exists pre post,
    Js.toLowerCase name = (pre ++ Js.toLowerCase s ++ post)%string.

(** A sequence is sorted by a field and a direction when no element is
    asked to move behind its successor. *)
Definition sorted_by (cmp : Character.t -> Character.t -> Z)
  : list Character.t -> Prop :=
  Sorted (fun a b => (cmp a b <= 0)%Z).

(** Equality of primitive values, for the keys of a sort. *)
Definition number_eqb (x y : Js.number) : bool :=
  match x, y with
  | Js.NaN, Js.NaN => true
  | Js.Num a, Js.Num b => (a =? b)%Z
  | _, _ => false
  end.

Definition value_eqb (x y : Js.value) : bool :=
  match x, y with
  | Js.VUndefined, Js.VUndefined => true
  | Js.VBoolean a, Js.VBoolean b => Bool.eqb a b
  | Js.VNumber a, Js.VNumber b => number_eqb a b
  | Js.VString a, Js.VString b => (a =? b)%string
  | Js.VArray a, Js.VArray b => if list_eq_dec string_dec a b then true else false
  | _, _ => false
  end.


(** Two records carry the same sort key. *)
Definition same_key (sortField : string) (a b : Character.t) : bool :=
  value_eqb (Js.ToPrimitive (sort_value sortField a))
            (Js.ToPrimitive (sort_value sortField b)).

(** The kind of a primitive key. *)
Inductive kind : Type := KUndefined | KBoolean | KNumber | KString.

(** [has_kind k v]: [v] is a primitive of kind [k] and is not NaN.  On
    keys of one kind the comparator of the listing is consistent in the
    sense of the standard. *)
Definition has_kind (k : kind) (v : Js.value) : Prop :=
  match k, v with
  | KUndefined, Js.VUndefined => True
  | KBoolean, Js.VBoolean _ => True
  | KNumber, Js.VNumber (Js.Num _) => True
  | KString, Js.VString _ => True
  | _, _ => False
  end.

Definition key_of_kind (sortField : string) (k : kind) (c : Character.t) : Prop :=
  has_kind k (Js.ToPrimitive (sort_value sortField c)).

(** How many accounts carry a user name. *)
Definition count_username (name : string) (l : list User.t) : nat :=
  List.length (filter (by_username name) l).

(* ================================================================= *)
(** ** Scenario data *)

(** The Unicode character data on the Latin-1 Supplement (U+0080 to
    U+00FF), on the Greek letters from capital alpha to capital omega
    and from small alpha to small omega, on the capital I with dot
    (U+0130) and on the combining marks U+0300 to U+036F: what the
    concrete runs below read.  The instance does not cover other
    characters; it leaves them as they are. *)
Definition latin_greek_lower (c : string) : string :=
  match c with
  | String b1 (String b2 EmptyString) =>
      let n1 := nat_of_ascii b1 in
      let n2 := nat_of_ascii b2 in
      if (n1 =? 195)%nat && (128 <=? n2)%nat && (n2 <=? 158)%nat && negb (n2 =? 151)%nat
      then String b1 (String (ascii_of_nat (n2 + 32)) EmptyString)
      else if (n1 =? 206)%nat && (145 <=? n2)%nat && (n2 <=? 159)%nat
      then String b1 (String (ascii_of_nat (n2 + 32)) EmptyString)
      else if (n1 =? 206)%nat && (160 <=? n2)%nat && (n2 <=? 169)%nat && negb (n2 =? 162)%nat
      then String (ascii_of_nat 207) (String (ascii_of_nat (n2 - 32)) EmptyString)
      else if (n1 =? 196)%nat && (n2 =? 176)%nat
      then String (ascii_of_nat 105)
             (String (ascii_of_nat 204) (String (ascii_of_nat 135) EmptyString))
      else c
  | _ => c
  end.

Definition latin_greek_cased (c : string) : bool :=
  match c with
  | String b1 (String b2 EmptyString) =>
      let n1 := nat_of_ascii b1 in
      let n2 := nat_of_ascii b2 in
      ((n1 =? 194)%nat && ((n2 =? 170)%nat || (n2 =? 181)%nat || (n2 =? 186)%nat))
      || ((n1 =? 195)%nat && negb (n2 =? 151)%nat && negb (n2 =? 183)%nat)
      || ((n1 =? 206)%nat && (145 <=? n2)%nat && (n2 <=? 169)%nat && negb (n2 =? 162)%nat)
      || ((n1 =? 206)%nat && (177 <=? n2)%nat)
      || ((n1 =? 207)%nat && (n2 <=? 137)%nat)
      || ((n1 =? 196)%nat && (n2 =? 176)%nat)
  | _ => false
  end.

Definition latin_greek_ignorable (c : string) : bool :=
  match c with
  | String b1 (String b2 EmptyString) =>
      let n1 := nat_of_ascii b1 in
      let n2 := nat_of_ascii b2 in
      ((n1 =? 194)%nat
       && ((n2 =? 168)%nat || (n2 =? 173)%nat || (n2 =? 175)%nat
           || (n2 =? 180)%nat || (n2 =? 183)%nat || (n2 =? 184)%nat))
      || (n1 =? 204)%nat || ((n1 =? 205)%nat && (n2 <=? 175)%nat)
  | _ => false
  end.

#[export] Instance latin_greek : Js.Unicode := {|
  Js.lower_beyond := latin_greek_lower;
  Js.cased_beyond := latin_greek_cased;
  Js.ignorable_beyond := latin_greek_ignorable
|}.

Definition unit_red : Unit.t := Unit.mk "u1" "Red" "" "" false (Js.Num 1990).
Definition unit_blue : Unit.t := Unit.mk "u2" "Blue" "" "" true (Js.Num 2001).

Definition char_alpha : Character.t :=
  Character.mk (Some "65f000000000000000000001") "c1" "Alpha" (Js.Num 30) ""
               true "Captain" "1990-01-01" "" ["M4"] unit_red.

Definition char_beta : Character.t :=
  Character.mk (Some "65f000000000000000000002") "c2" "Beta" (Js.Num 25) ""
               false "Sergeant" "1995-05-05" "" ["AK"; "Knife"] unit_blue.

Definition char_sigma : Character.t :=
  Character.mk (Some "65f000000000000000000004") "c4" "ΑΣ" (Js.Num 41) ""
               true "Major" "1980-03-03" "" [] unit_red.

Definition char_elan : Character.t :=
  Character.mk (Some "65f000000000000000000005") "c5" "Élan" (Js.Num 33) ""
               true "Corporal" "1988-08-08" "" [] unit_blue.

(** A roster with an age that is not a number, as an edit with an
    age field that [parseInt] cannot read leaves it. *)
Definition char_aged (id : string) (age : Js.number) : Character.t :=
  Character.mk None id id age "" true "Private" "2000-01-01" "" [] unit_red.

Definition roster_nan : list Character.t :=
  [char_aged "k1" (Js.Num 1); char_aged "k2" (Js.Num 2);
   char_aged "k3" (Js.Num 9); char_aged "k4" Js.NaN;
   char_aged "k5" (Js.Num 5); char_aged "k6" (Js.Num 0);
   char_aged "k7" (Js.Num 5)].

Definition account_admin : User.t :=
  User.mk (Some "65e000000000000000000001") "admin" "$2a$10$admin" ADMIN.

Definition account_user : User.t :=
  User.mk (Some "65e000000000000000000002") "user" "$2a$10$user" USER.

Definition session_admin : Session :=
  Some (SessionUser.mk (Some "65e000000000000000000001") "admin" ADMIN).

Definition session_user : Session :=
  Some (SessionUser.mk (Some "65e000000000000000000002") "user" USER).

Definition emblem_red : Emblem.t :=
  Emblem.mk "u1" [("name", Js.VString "Red Company")].

Definition db_scenario : Db :=
  mkDb [account_admin; account_user] [char_alpha; char_beta] [emblem_red].

(** [GET /characters?search=a&sort=name&order=asc] *)
Definition query_scenario : Query := mkQuery (Some "a") (Some "name") (Some "asc").

Definition request_scenario : Request Datatypes.unit :=
  mkRequest session_user "" query_scenario tt.

Definition db_empty : Db := mkDb [] [] [].

(** A toy instance of bcrypt for the concrete runs: the hash is the
    salt followed by the password. *)
Definition toy_hash (pass : string) (rounds : nat) (salt : string) : string :=
  salt ++ pass.

Definition toy_compare (pass h : string) : bool :=
  String.prefix "$2a$10$" h && (substring 7 (String.length h - 7) h =? pass).

Definition no_number (_ : string) : Js.number := Js.NaN.

Definition seed_env (data : option (list Character.t)) : SeedEnv :=
  mkSeedEnv true (mkEntropy "$2a$10$" "65e000000000000000000001")
            (mkEntropy "$2a$10$" "65e000000000000000000002")
            data (fun _ => "65f000000000000000000000").

(* ================================================================= *)
(** ** The remaining routes (lines 169-171, 209-223, 242-248, 273-281) *)

(** [new Map(entries)]: keys are kept in the order of their first
    insertion; a later entry with a key already present replaces the
    value in place. *)
Module JsMap.

Section WithValues.
Context {V : Type}.

Definition t : Type := list (string * V).

Fixpoint set (k : string) (v : V) (m : t) : t :=
  match m with
  | [] => [(k, v)]
  | (k', v') :: m' =>
      if (k' =? k)%string then (k, v) :: m' else (k', v') :: set k v m'
  end.

(** [new Map(iterable)] *)
Definition of_entries (es : list (string * V)) : t :=
  fold_left (fun m e => set (fst e) (snd e) m) es [].

(** [map.get(k)] *)
Definition get (k : string) (m : t) : option V :=
  option_map snd (find (fun e => (fst e =? k)%string) m).

(** [Array.from(map.values())] *)
Definition values (m : t) : list V := map snd m.

End WithValues.

End JsMap.

(** [Array.from(new Map(characters.map(c => [c.unit.id, c.unit])).values())] *)
Definition uniqueUnits (chars : list Character.t) : list Unit.t :=
  JsMap.values
    (JsMap.of_entries
       (map (fun c => (Unit.id (Character.unit c), Character.unit c)) chars)).

(** The views of these routes. *)
Inductive Page : Type :=
| page_detail (character : Character.t)
| page_edit (character : Character.t)
| page_units (units : list Unit.t)
| page_users (users : list User.t).

(** The answer of one of these routes: a response as above, or one of
    their pages rendered. *)
Inductive Reply : Type :=
| Plain (r : Response)
| RenderPage (status : nat) (locals_user : Session) (p : Page).

Record PageEffect : Type := mkPageEffect {
  page_db_after : Db;
  page_session_after : Session;
  reply : Reply
}.

(** [route] for the handlers that answer with a [Reply]. *)
Fixpoint route_page {B : Type} (ms : list Middleware)
         (handler : Request B -> Db -> PageEffect) (req : Request B) (db : Db)
  : PageEffect :=
  match ms with
  | [] => handler req db
  | m :: ms' =>
      match m (session req) with
      | Next => route_page ms' handler req db
      | Answer r => mkPageEffect db (session req) (Plain r)
      end
  end.

(** [app.get('/')] *)
Definition get_root {B : Type} (req : Request B) (db : Db) : Effect :=
  mkEffect db (session req) (Redirect "/characters").

(** [app.get('/characters/:id')] *)
Definition get_character_handler {B : Type} (req : Request B) (db : Db) : PageEffect :=
  match findOne (by_id (params_id req)) (characters db) with
  | None => mkPageEffect db (session req) (Plain (Send 404 "Niet gevonden"))
  | Some char =>
      mkPageEffect db (session req) (RenderPage 200 (session req) (page_detail char))
  end.

Definition get_character {B : Type} : Request B -> Db -> PageEffect :=
  route_page [requireLogin] get_character_handler.

(** [app.get('/characters/:id/edit')] *)
Definition get_edit_handler {B : Type} (req : Request B) (db : Db) : PageEffect :=
  match findOne (by_id (params_id req)) (characters db) with
  | None => mkPageEffect db (session req) (Plain (Send 404 "Niet gevonden"))
  | Some char =>
      mkPageEffect db (session req) (RenderPage 200 (session req) (page_edit char))
  end.

Definition get_edit {B : Type} : Request B -> Db -> PageEffect :=
  route_page [requireLogin; requireAdmin] get_edit_handler.

(** [app.get('/units')] *)
Definition get_units_handler {B : Type} (req : Request B) (db : Db) : PageEffect :=
  let units := uniqueUnits (characters db) in
  mkPageEffect db (session req) (RenderPage 200 (session req) (page_units units)).

Definition get_units {B : Type} : Request B -> Db -> PageEffect :=
  route_page [requireLogin] get_units_handler.

(** [app.get('/users')] *)
Definition get_users_handler {B : Type} (req : Request B) (db : Db) : PageEffect :=
  mkPageEffect db (session req) (RenderPage 200 (session req) (page_users (users db))).

Definition get_users {B : Type} : Request B -> Db -> PageEffect :=
  route_page [requireLogin; requireAdmin] get_users_handler.

(** ** Further vocabulary *)

(** The property names of a character record. *)
Definition character_keys : list string :=
  ["_id"; "id"; "name"; "age"; "description"; "isActive"; "rank";
   "birthDate"; "imageUrl"; "weapons"; "unit"].

(** The primitive key the comparator reads off a record. *)
Definition primitive_key (sortField : string) (c : Character.t) : Js.value :=
  Js.ToPrimitive (sort_value sortField c).

(** The identity a login stores in the session for an account. *)
Definition identity_of (u : User.t) : SessionUser.t :=
  SessionUser.mk (User._id u) (User.username u) (User.role u).

(** No two accounts carry the same user name. *)
Definition unique_usernames (db : Db) : Prop :=
  NoDup (map User.username (users db)).

(** The last document of a collection that satisfies a query. *)
Definition findLast {A : Type} (q : A -> bool) (col : list A) : option A :=
  findOne q (rev col).

(** A character as the dataset gave it, apart from the [_id] the driver
    adds. *)
Definition same_but_oid (a b : Character.t) : Prop :=
  Character.id a = Character.id b /\
  Character.name a = Character.name b /\
  Character.age a = Character.age b /\
  Character.description a = Character.description b /\
  Character.isActive a = Character.isActive b /\
  Character.rank a = Character.rank b /\
  Character.birthDate a = Character.birthDate b /\
  Character.imageUrl a = Character.imageUrl b /\
  Character.weapons a = Character.weapons b /\
  Character.unit a = Character.unit b.

(** Further scenario data: a second member of the red unit whose
    embedded copy of the unit differs. *)
Definition unit_red_renamed : Unit.t :=
  Unit.mk "u1" "Crimson" "" "" false (Js.Num 1990).

Definition char_gamma : Character.t :=
  Character.mk None "c3" "Gamma" Js.NaN "" true "Private" "2000-02-02" ""
               [] unit_red_renamed.

(* ================================================================= *)
(** * Properties *)

(** ** Concrete runs *)

Example includes_Beta_a :
  Js.includes (Js.toLowerCase "Beta") (Js.toLowerCase "A") = true.
Proof. reflexivity. Qed.

Example sort_numbers :
  Js.sort Z.sub [3; 1; 2; 1]%Z = [1; 1; 2; 3]%Z.
Proof. reflexivity. Qed.

Example login_succeeds :
  post_login toy_compare
    (mkRequest None "" no_query (mkCredentials "admin" "admin")) db_scenario
  = mkEffect db_scenario session_admin (Redirect "/characters").
Proof. reflexivity. Qed.

Example anonymous_listing_redirects :
  response (get_characters no_number
              (mkRequest None "" query_scenario tt) db_scenario)
  = Redirect "/login".
Proof. reflexivity. Qed.

Example user_edit_forbidden :
  post_edit (fun _ => Js.NaN)
    (mkRequest session_user "c1" no_query (mkEditForm "X" "1" "" (Some "true")))
    db_scenario
  = mkEffect db_scenario session_user
      (Render 403 session_user (view_error "Geen toegang. Alleen voor admins.")).
Proof. reflexivity. Qed.

Example seed_empty_database :
  connectAndSeedDatabase toy_hash (seed_env (Some [char_alpha; char_beta])) db_empty
  = mkDb [User.mk (Some "65e000000000000000000001") "admin" "$2a$10$admin123" ADMIN;
          User.mk (Some "65e000000000000000000002") "user" "$2a$10$user123" USER]
         [char_alpha; char_beta] [].
Proof. reflexivity. Qed.

Example seed_fetch_fails :
  connectAndSeedDatabase toy_hash (seed_env None) db_scenario = db_scenario /\
  characters (connectAndSeedDatabase toy_hash (seed_env None) db_empty) = [].
Proof. split; reflexivity. Qed.

(** ** Collections *)

Lemma findOne_none {A : Type} (q : A -> bool) (col : list A) :
  findOne q col = None <-> forall d, In d col -> q d = false.
Proof.
  unfold findOne. split.
  - intros H d Hd. exact (find_none q col H d Hd).
  - induction col as [|d col IH]; simpl; intros H; [reflexivity|].
    rewrite (H d (or_introl eq_refl)). apply IH.
    intros d' Hd'. apply H. now right.
Qed.

Lemma findOne_some {A : Type} (q : A -> bool) (col : list A) (d : A) :
  findOne q col = Some d ->
  exists before after,
    col = before ++ d :: after /\ q d = true /\
    forall x, In x before -> q x = false.
Proof.
  unfold findOne. induction col as [|x col IH]; simpl; [discriminate|].
  destruct (q x) eqn:Hx.
  - intros [= ->]. exists [], col. simpl. repeat split; tauto.
  - intros H. destruct (IH H) as (before & after & -> & Hd & Hb).
    exists (x :: before), after. simpl. repeat split; trivial.
    intros y [<-|Hy]; auto.
Qed.

Lemma findOne_filter_head {A : Type} (q : A -> bool) (col : list A) :
  findOne q col = hd_error (filter q col).
Proof.
  unfold findOne. induction col as [|x col IH]; simpl; [reflexivity|].
  destruct (q x); simpl; auto.
Qed.

Lemma findOne_insertOne {A : Type} (q : A -> bool) (col : list A) (d : A) :
  q d = true -> findOne q (insertOne d col) <> None.
Proof.
  intros Hd H. rewrite findOne_none in H.
  rewrite (H d) in Hd; [discriminate|].
  unfold insertOne. apply in_or_app. right. now left.
Qed.

Lemma findOne_app_some {A : Type} (q : A -> bool) (col more : list A) (d : A) :
  findOne q col = Some d -> findOne q (col ++ more) = Some d.
Proof.
  unfold findOne. induction col as [|x col IH]; simpl; [discriminate|].
  destruct (q x); auto.
Qed.

(** ** Session gate *)

Lemma authenticated_dec (s : Session) : authenticated s \/ s = None.
Proof.
  destruct s as [u|]; [left; now exists u | now right].
Qed.

Lemma admin_session_dec (s : Session) : admin_session s \/ ~ admin_session s.
Proof.
  destruct s as [u|].
  - destruct (SessionUser.role u) eqn:Hr.
    + left. now exists u.
    + right. intros (u' & [= <-] & H). congruence.
  - right. intros (u' & H & _). discriminate.
Qed.

(** C5. [requireLogin] lets a request pass exactly when its session holds
    a user identity and otherwise redirects it to /login; [requireAdmin]
    lets it pass exactly when the session holds a user of role ADMIN and
    otherwise answers with status 403 and the access-denied view, which
    is never the answer of [requireLogin]. *)
Theorem guards_pass_and_reject (B : Type) (req : Request B) :
  (requireLogin (session req) = Next <-> authenticated (session req)) /\
  (requireLogin (session req) = Next \/
   requireLogin (session req) = Answer (Redirect "/login")) /\
  (requireAdmin (session req) = Next <-> admin_session (session req)) /\
  (requireAdmin (session req) = Next \/
   requireAdmin (session req) =
     Answer (Render 403 (session req) (view_error "Geen toegang. Alleen voor admins."))) /\
  (forall (req' : Request B) r r',
      requireLogin (session req) = Answer r ->
      requireAdmin (session req') = Answer r' -> r <> r').
Proof.
  destruct req as [s pid q b]; simpl.
  repeat split.
  - destruct s as [u|]; simpl; [intros _; now exists u | discriminate].
  - intros [u ->]. reflexivity.
  - destruct s; simpl; auto.
  - unfold requireAdmin. destruct s as [u|]; [|discriminate].
    destruct (SessionUser.role u) eqn:Hr; simpl; [|discriminate].
    intros _. now exists u.
  - intros (u & -> & Hr). simpl. now rewrite Hr.
  - unfold requireAdmin. destruct s as [u|]; auto.
    destruct (Role_eqb (SessionUser.role u) ADMIN); auto.
  - intros req' r r' H1 H2.
    destruct s; simpl in H1; [discriminate|]. injection H1 as <-.
    unfold requireAdmin in H2. destruct (session req') as [u|].
    + destruct (Role_eqb (SessionUser.role u) ADMIN); [discriminate|].
      injection H2 as <-. discriminate.
    + injection H2 as <-. discriminate.
Qed.

Lemma guards_pass_and_reject_witness :
  requireLogin session_user = Next /\
  requireAdmin session_user =
    Answer (Render 403 session_user (view_error "Geen toegang. Alleen voor admins.")) /\
  Redirect "/login" <>
    Render 403 session_user (view_error "Geen toegang. Alleen voor admins.").
Proof.
  pose proof (guards_pass_and_reject Datatypes.unit
                (mkRequest None "" no_query tt)) as (_ & _ & _ & _ & Hd).
  repeat split; try reflexivity.
  apply (Hd (mkRequest session_user "" no_query tt)); reflexivity.
Defined.

(** C10. GET /login and GET /register answer a request whose session
    holds a user identity with a redirect to /characters; they render
    their form exactly for the requests without one.  Neither touches
    the database or the session. *)
Theorem forms_only_for_anonymous (B : Type) (req : Request B) (db : Db) :
  (authenticated (session req) <->
   response (get_login req db) = Redirect "/characters") /\
  (session req = None <->
   response (get_login req db) = Render 200 None (view_login None)) /\
  (authenticated (session req) <->
   response (get_register req db) = Redirect "/characters") /\
  (session req = None <->
   response (get_register req db) = Render 200 None (view_register None)) /\
  (forall st u v, response (get_login req db) = Render st u v -> session req = None) /\
  (forall st u v, response (get_register req db) = Render st u v -> session req = None) /\
  db_after (get_login req db) = db /\ db_after (get_register req db) = db /\
  session_after (get_login req db) = session req /\
  session_after (get_register req db) = session req.
Proof.
  unfold get_login, get_register, authenticated.
  destruct (session req) as [u|]; simpl;
    repeat split; try congruence; try discriminate; eauto;
    try (intros [u' H]; discriminate).
Qed.

Lemma forms_only_for_anonymous_witness :
  response (get_login (mkRequest session_user "" no_query tt) db_scenario)
    = Redirect "/characters" /\
  session (mkRequest (@None SessionUser.t) "" no_query tt) = None.
Proof.
  pose proof (forms_only_for_anonymous Datatypes.unit
                (mkRequest session_user "" no_query tt) db_scenario)
    as (Hin & _).
  pose proof (forms_only_for_anonymous Datatypes.unit
                (mkRequest None "" no_query tt) db_scenario)
    as (_ & _ & _ & _ & Hform & _).
  split.
  - apply Hin. now exists (SessionUser.mk (Some "65e000000000000000000002") "user" USER).
  - exact (Hform 200%nat None (view_login None) eq_refl).
Defined.

(** ** Login and registration *)

Section Accounts.

Variable compare : string -> string -> bool.
Variable hash : string -> nat -> string -> string.

(** C4. A login attempt for a user name that no account carries and a
    login attempt whose password [bcrypt.compare] rejects against the
    stored hash have the same effect: the login form rendered again
    with the one generic message, the session and the database as they
    were. *)
Theorem login_failures_indistinguishable
        (db : Db) (s : Session) (pid : string) (q : Query)
        (unknown known : Credentials) (account : User.t) :
  findOne (by_username (username unknown)) (users db) = None ->
  findOne (by_username (username known)) (users db) = Some account ->
  compare (password known) (User.password account) = false ->
  let e1 := post_login compare (mkRequest s pid q unknown) db in
  let e2 := post_login compare (mkRequest s pid q known) db in
  response e1 = response e2 /\
  response e1 =
    Render 200 s (view_login (Some "Gebruikersnaam of wachtwoord onjuist.")) /\
  session_after e1 = s /\ session_after e2 = s /\
  db_after e1 = db /\ db_after e2 = db.
Proof.
  intros Hu Hk Hc. unfold post_login; simpl.
  rewrite Hu, Hk, Hc. simpl. repeat split.
Qed.

(** C6. Whatever the user name, the password and the accounts already
    stored, a registration either leaves the accounts as they are or
    appends one account of role USER: the ADMIN accounts are the same
    before and after. *)
Theorem register_never_creates_admin
        (env : Entropy) (req : Request Credentials) (db : Db) :
  let db' := db_after (post_register hash env req db) in
  (users db' = users db \/
   exists u, users db' = users db ++ [u] /\ User.role u = USER /\
             User.username u = username (body req)) /\
  filter is_admin (users db') = filter is_admin (users db) /\
  (forall u, In u (users db') -> ~ In u (users db) -> User.role u = USER) /\
  characters db' = characters db /\ emblems db' = emblems db.
Proof.
  unfold post_register.
  destruct (findOne (by_username (username (body req))) (users db)); simpl.
  - repeat split; auto. intros u Hin Hout. contradiction.
  - unfold insertOne. repeat split.
    + right. eexists. repeat split.
    + rewrite filter_app. simpl. apply app_nil_r.
    + intros u Hin Hout. apply in_app_or in Hin as [Hin|[<-|[]]];
        [contradiction | reflexivity].
Qed.

End Accounts.

Lemma login_failures_indistinguishable_witness :
  let e1 := post_login toy_compare
              (mkRequest None "" no_query (mkCredentials "nobody" "admin123")) db_scenario in
  let e2 := post_login toy_compare
              (mkRequest None "" no_query (mkCredentials "admin" "wrong")) db_scenario in
  response e1 = response e2 /\
  response e1 =
    Render 200 None (view_login (Some "Gebruikersnaam of wachtwoord onjuist.")) /\
  session_after e1 = None /\ session_after e2 = None /\
  db_after e1 = db_scenario /\ db_after e2 = db_scenario.
Proof.
  apply (login_failures_indistinguishable toy_compare db_scenario None "" no_query
           (mkCredentials "nobody" "admin123") (mkCredentials "admin" "wrong")
           account_admin); reflexivity.
Defined.

Lemma register_never_creates_admin_witness :
  filter is_admin
    (users (db_after (post_register toy_hash (mkEntropy "$2a$10$" "65e000000000000000000003")
                        (mkRequest None "" no_query (mkCredentials "root" "pw"))
                        db_scenario)))
  = [account_admin].
Proof.
  pose proof (register_never_creates_admin toy_hash
                (mkEntropy "$2a$10$" "65e000000000000000000003")
                (mkRequest None "" no_query (mkCredentials "root" "pw"))
                db_scenario) as (_ & H & _).
  exact H.
Defined.

(** ** Unit detail *)

(** C9. For the requested unit id the detail handler shows the first
    emblem record with that id when there is one; without one it shows
    the unit embedded in the first character of that unit; and it
    answers 404 exactly when no emblem record and no character carries
    the id. *)
Theorem unit_detail_precedence (B : Type) (req : Request B) (db : Db) :
  let unitId := params_id req in
  let members := filter (in_unit unitId) (characters db) in
  let r := response (get_unit_handler req db) in
  (forall e, findOne (emblem_by_id unitId) (emblems db) = Some e ->
     r = Render 200 (session req) (view_unit_detail (OfEmblem e) members)) /\
  (forall m, findOne (emblem_by_id unitId) (emblems db) = None ->
     findOne (in_unit unitId) (characters db) = Some m ->
     r = Render 200 (session req)
           (view_unit_detail (OfMember (Character.unit m)) members)) /\
  (r = Send 404 ("Unit " ++ unitId ++ " niet gevonden.") <->
   (forall e, In e (emblems db) -> Emblem.id e <> unitId) /\
   (forall c, In c (characters db) -> Unit.id (Character.unit c) <> unitId)) /\
  db_after (get_unit_handler req db) = db.
Proof.
  intros unitId members r. subst r. unfold get_unit_handler.
  fold unitId. fold members.
  assert (Hfind : findOne (in_unit unitId) (characters db) = hd_error members)
    by apply findOne_filter_head.
  split; [|split; [|split]].
  - intros e ->. reflexivity.
  - intros m -> Hm. rewrite Hfind in Hm.
    destruct members as [|m' ms]; simpl in *; [discriminate|].
    now injection Hm as ->.
  - split.
    + intros H404.
      destruct (findOne (emblem_by_id unitId) (emblems db)) eqn:He; simpl in *;
        [discriminate|].
      destruct members as [|m ms] eqn:Hmem; simpl in *; [|discriminate].
      split.
      * intros e Hin Hid. rewrite findOne_none in He.
        specialize (He e Hin). unfold emblem_by_id in He.
        rewrite String.eqb_neq in He. contradiction.
      * intros c Hin Hid.
        assert (Hc : In c (filter (in_unit unitId) (characters db))).
        { apply filter_In. split; trivial. unfold in_unit. now apply String.eqb_eq. }
        fold members in Hc. rewrite Hmem in Hc. contradiction.
    + intros [He Hc].
      assert (He' : findOne (emblem_by_id unitId) (emblems db) = None).
      { apply findOne_none. intros e Hin. unfold emblem_by_id.
        apply String.eqb_neq. auto. }
      assert (Hc' : findOne (in_unit unitId) (characters db) = None).
      { apply findOne_none. intros c Hin. unfold in_unit.
        apply String.eqb_neq. auto. }
      rewrite He'. rewrite Hfind in Hc'.
      destruct members; simpl in *; [reflexivity | discriminate].
  - destruct (finalUnitData _ _); reflexivity.
Qed.

Lemma unit_detail_precedence_witness :
  response (get_unit_handler (mkRequest session_user "u1" no_query tt) db_scenario)
    = Render 200 session_user (view_unit_detail (OfEmblem emblem_red) [char_alpha]) /\
  response (get_unit_handler (mkRequest session_user "u2" no_query tt) db_scenario)
    = Render 200 session_user (view_unit_detail (OfMember unit_blue) [char_beta]).
Proof.
  pose proof (unit_detail_precedence Datatypes.unit
                (mkRequest session_user "u1" no_query tt) db_scenario)
    as (Hemblem & _).
  pose proof (unit_detail_precedence Datatypes.unit
                (mkRequest session_user "u2" no_query tt) db_scenario)
    as (_ & Hmember & _).
  split.
  - exact (Hemblem emblem_red eq_refl).
  - exact (Hmember char_beta eq_refl eq_refl).
Defined.

(** ** Edit *)

Lemma updateOne_length {A : Type} (q : A -> bool) (upd : A -> A) (col : list A) :
  List.length (updateOne q upd col) = List.length col.
Proof.
  induction col as [|d col IH]; simpl; [reflexivity|].
  destruct (q d); simpl; congruence.
Qed.

(** The document at position [i] is rewritten exactly when it is the
    first one that satisfies the query. *)
Lemma updateOne_nth {A : Type} (q : A -> bool) (upd : A -> A) (col : list A) :
  forall i d,
    nth_error col i = Some d ->
    nth_error (updateOne q upd col) i =
      Some (if q d && forallb (fun x => negb (q x)) (firstn i col)
            then upd d else d).
Proof.
  induction col as [|x col IH]; intros [|i] d; simpl; try discriminate.
  - intros [= ->]. destruct (q d); reflexivity.
  - intros H. destruct (q x) eqn:Hx; simpl.
    + rewrite H. now rewrite andb_false_r.
    + now apply IH.
Qed.

Lemma first_match_spec {A : Type} (q : A -> bool) (col : list A) (i : nat) :
  forallb (fun x => negb (q x)) (firstn i col) = true <->
  forall j d, (j < i)%nat -> nth_error col j = Some d -> q d = false.
Proof.
  revert i. induction col as [|x col IH]; intros i.
  - rewrite firstn_nil. simpl. split; trivial.
    intros _ [|j] d _; discriminate.
  - destruct i as [|i]; simpl.
    + split; trivial. intros _ j d Hj. lia.
    + rewrite andb_true_iff, IH, negb_true_iff. split.
      * intros [Hx H] [|j] d Hj; simpl.
        -- now intros [= <-].
        -- apply H. lia.
      * intros H. split.
        -- apply (H 0%nat); [lia | reflexivity].
        -- intros j d Hj. apply (H (S j)). lia.
Qed.

Lemma route_admin_only {B : Type} (h : Request B -> Db -> Effect)
      (req : Request B) (db : Db) :
  (admin_session (session req) /\
   route [requireLogin; requireAdmin] h req db = h req db) \/
  (~ admin_session (session req) /\
   db_after (route [requireLogin; requireAdmin] h req db) = db).
Proof.
  simpl. destruct (session req) as [u|] eqn:Hs; simpl.
  - destruct (SessionUser.role u) eqn:Hr; simpl.
    + left. split; [now exists u | reflexivity].
    + right. split; [|reflexivity]. intros (u' & [= <-] & H). congruence.
  - right. split; [|reflexivity]. intros (u' & H & _). discriminate.
Qed.

Section EditProperties.

Variable parseInt : string -> Js.number.

(** C8. An edit request leaves the accounts and the emblems alone and
    keeps every character in its place.  The character at a position
    keeps its [_id], [id], rank, birth date, image reference, weapons
    and unit; it changes at all only when the request comes from an
    administrator and it is the first character with the requested id,
    and then its name, age, description and active flag are the ones
    of the form. *)
Theorem edit_frame (req : Request EditForm) (db : Db) :
  let db' := db_after (post_edit parseInt req db) in
  let f := body req in
  users db' = users db /\ emblems db' = emblems db /\
  List.length (characters db') = List.length (characters db) /\
  forall i c,
    nth_error (characters db) i = Some c ->
    exists c',
      nth_error (characters db') i = Some c' /\
      Character._id c' = Character._id c /\
      Character.id c' = Character.id c /\
      Character.rank c' = Character.rank c /\
      Character.birthDate c' = Character.birthDate c /\
      Character.imageUrl c' = Character.imageUrl c /\
      Character.weapons c' = Character.weapons c /\
      Character.unit c' = Character.unit c /\
      (c' <> c ->
       admin_session (session req) /\
       Character.id c = params_id req /\
       forall j d, (j < i)%nat -> nth_error (characters db) j = Some d ->
                   Character.id d <> params_id req) /\
      (admin_session (session req) ->
       Character.id c = params_id req ->
       (forall j d, (j < i)%nat -> nth_error (characters db) j = Some d ->
                    Character.id d <> params_id req) ->
       Character.name c' = form_name f /\
       Character.age c' = parseInt (form_age f) /\
       Character.description c' = form_description f /\
       Character.isActive c' = strict_eq (form_isActive f) "true").
Proof.
  intros db' f. subst db'. unfold post_edit.
  destruct (route_admin_only (post_edit_handler parseInt) req db)
    as [[Hadm ->]|[Hno ->]].
  - unfold post_edit_handler; simpl.
    repeat split; [apply updateOne_length|].
    intros i c Hc.
    rewrite (updateOne_nth _ _ _ i c Hc).
    eexists; split; [reflexivity|].
    destruct (by_id (params_id req) c) eqn:Hq; simpl.
    + destruct (forallb _ (firstn i (characters db))) eqn:Hfirst.
      * rewrite first_match_spec in Hfirst. unfold by_id in Hq, Hfirst.
        apply String.eqb_eq in Hq.
        repeat split; auto.
        intros j d Hj Hd. apply String.eqb_neq. eauto.
      * assert (Hearlier :
                  ~ forall j d, (j < i)%nat ->
                                nth_error (characters db) j = Some d ->
                                Character.id d <> params_id req).
        { intros Hprev.
          assert (forallb (fun x => negb (by_id (params_id req) x))
                          (firstn i (characters db)) = true); [|congruence].
          apply first_match_spec. intros j d Hj Hd.
          apply String.eqb_neq. eauto. }
        repeat split; try congruence; exfalso; apply Hearlier; assumption.
    + unfold by_id in Hq. apply String.eqb_neq in Hq.
      repeat split; congruence.
  - repeat split. intros i c Hc. exists c.
    repeat split; trivial; [congruence | contradiction ..].
Qed.

End EditProperties.

Lemma edit_frame_witness :
  exists c',
    nth_error
      (characters
         (db_after (post_edit (fun _ => Js.Num 31)
                      (mkRequest session_admin "c1" no_query
                         (mkEditForm "Alfa" "31" "promoted" None))
                      db_scenario))) 0 = Some c' /\
    Character.name c' = "Alfa" /\ Character.age c' = Js.Num 31 /\
    Character.rank c' = "Captain" /\ Character.unit c' = unit_red.
Proof.
  pose proof (edit_frame (fun _ => Js.Num 31)
                (mkRequest session_admin "c1" no_query
                   (mkEditForm "Alfa" "31" "promoted" None))
                db_scenario) as (_ & _ & _ & H).
  destruct (H 0%nat char_alpha eq_refl)
    as (c' & Hc' & _ & _ & Hrank & _ & _ & _ & Hunit & _ & Hset).
  exists c'. split; [exact Hc'|].
  destruct Hset as (Hname & Hage & _).
  - now exists (SessionUser.mk (Some "65e000000000000000000001") "admin" ADMIN).
  - reflexivity.
  - intros j d Hj. inversion Hj.
  - repeat split; assumption.
Defined.

(** ** Bootstrap seeder *)

Lemma Db_eq (a b : Db) :
  users a = users b -> characters a = characters b -> emblems a = emblems b ->
  a = b.
Proof.
  destruct a, b; simpl; intros; subst; reflexivity.
Qed.

Lemma findOne_app {A : Type} (q : A -> bool) (l1 l2 : list A) :
  findOne q (l1 ++ l2) =
    match findOne q l1 with
    | Some d => Some d
    | None => findOne q l2
    end.
Proof.
  unfold findOne. induction l1 as [|x l1 IH]; simpl; [reflexivity|].
  destruct (q x); auto.
Qed.

Lemma count_username_app (name : string) (l1 l2 : list User.t) :
  count_username name (l1 ++ l2) =
    (count_username name l1 + count_username name l2)%nat.
Proof.
  unfold count_username. now rewrite filter_app, length_app.
Qed.

Lemma count_username_none (name : string) (l : list User.t) :
  findOne (by_username name) l = None -> count_username name l = 0%nat.
Proof.
  unfold count_username, findOne.
  induction l as [|u l IH]; simpl; [reflexivity|].
  destruct (by_username name u); [discriminate | exact IH].
Qed.

Lemma count_username_some (name : string) (l : list User.t) (u : User.t) :
  findOne (by_username name) l = Some u -> (1 <= count_username name l)%nat.
Proof.
  unfold count_username, findOne.
  induction l as [|x l IH]; simpl; [discriminate|].
  destruct (by_username name x); simpl; [lia | exact IH].
Qed.

Section SeederProperties.

Variable hash : string -> nat -> string -> string.

Local Abbreviation seed := (connectAndSeedDatabase hash).

Local Abbreviation admin_doc env :=
  (User.mk (Some (oid (admin_entropy env))) "admin"
           (hash "admin123" 10 (salt (admin_entropy env))) ADMIN).

Local Abbreviation user_doc env :=
  (User.mk (Some (oid (user_entropy env))) "user"
           (hash "user123" 10 (salt (user_entropy env))) USER).

Lemma seed_disconnected (env : SeedEnv) (db : Db) :
  connect_ok env = false -> seed env db = db.
Proof.
  intros H. unfold connectAndSeedDatabase, Try.catch, seed_body,
    Try.bind, connect. now rewrite H.
Qed.

Lemma seed_emblems (env : SeedEnv) (db : Db) :
  emblems (seed env db) = emblems db.
Proof.
  unfold connectAndSeedDatabase, Try.catch, seed_body, Try.bind,
    Try.gets, Try.when, Try.modify, Try.ret, Try.throw, connect,
    insert_user, fetch_json, insertMany.
  destruct (connect_ok env); simpl; [|reflexivity].
  destruct (findOne (by_username "admin") (users db)); simpl;
    match goal with
    | |- context [is_none ?x] => destruct x; simpl
    end;
    destruct (characters db); simpl; try reflexivity;
    destruct (fetched env) as [[|d data]|]; try reflexivity;
    simpl; destruct (holds_oid _ _); try reflexivity;
    destruct (insert_ordered _ _); reflexivity.
Qed.

Lemma seed_characters (env : SeedEnv) (db : Db) :
  connect_ok env = true ->
  characters (seed env db) =
    match characters db, fetched env with
    | [], Some data => fst (insert_ordered [] (assign_ids (fresh_ids env) 0 data))
    | col, _ => col
    end.
Proof.
  intros Hc.
  unfold connectAndSeedDatabase, Try.catch, seed_body, Try.bind,
    Try.gets, Try.when, Try.modify, Try.ret, Try.throw, connect,
    insert_user, fetch_json, insertMany.
  rewrite Hc; simpl.
  destruct (findOne (by_username "admin") (users db)); simpl;
    match goal with
    | |- context [is_none ?x] => destruct x; simpl
    end;
    destruct (characters db) eqn:Hchars; simpl; try reflexivity;
    destruct (fetched env) as [[|d data]|]; simpl; rewrite ?Hchars; simpl;
    try reflexivity;
    destruct (insert_ordered _ _); reflexivity.
Qed.

Lemma seed_users (env : SeedEnv) (db : Db) :
  connect_ok env = true ->
  users (seed env db) =
    users db
    ++ (if is_none (findOne (by_username "admin") (users db))
        then [admin_doc env] else [])
    ++ (if is_none (findOne (by_username "user") (users db))
        then [user_doc env] else []).
Proof.
  intros Hc.
  unfold connectAndSeedDatabase, Try.catch, seed_body, Try.bind,
    Try.gets, Try.when, Try.modify, Try.ret, Try.throw, connect,
    insert_user, fetch_json, insertMany.
  rewrite Hc; simpl.
  destruct (findOne (by_username "admin") (users db)) eqn:Ha; simpl.
  - destruct (findOne (by_username "user") (users db)) eqn:Hu; simpl;
      destruct (characters db); simpl;
      try (destruct (fetched env) as [[|d data]|]; simpl);
      try destruct (holds_oid _ _); simpl;
      try destruct (insert_ordered _ _); simpl;
      now rewrite ?app_nil_r.
  - unfold insertOne. rewrite findOne_app. simpl.
    destruct (findOne (by_username "user") (users db)) eqn:Hu; simpl;
      destruct (characters db); simpl;
      try (destruct (fetched env) as [[|d data]|]; simpl);
      try destruct (holds_oid _ _); simpl;
      try destruct (insert_ordered _ _); simpl;
      now rewrite <- ?app_assoc, ?app_nil_r.
Qed.

(** After a run that reached the database both default accounts are
    found. *)
Lemma seed_accounts_present (env : SeedEnv) (db : Db) :
  connect_ok env = true ->
  is_none (findOne (by_username "admin") (users (seed env db))) = false /\
  is_none (findOne (by_username "user") (users (seed env db))) = false.
Proof.
  intros Hc. rewrite (seed_users env db Hc).
  rewrite !findOne_app.
  destruct (findOne (by_username "admin") (users db));
    destruct (findOne (by_username "user") (users db)); simpl; auto.
Qed.

Lemma seed_count (env : SeedEnv) (db : Db) (name : string) :
  name = "admin" \/ name = "user" ->
  (count_username name (users (seed env db))
   <= Nat.max 1 (count_username name (users db)))%nat.
Proof.
  intros Hname. destruct (connect_ok env) eqn:Hc.
  - rewrite (seed_users env db Hc), !count_username_app.
    pose proof (Nat.le_max_l 1 (count_username name (users db))) as H1.
    pose proof (Nat.le_max_r 1 (count_username name (users db))) as Hn.
    revert H1 Hn. generalize (Nat.max 1 (count_username name (users db))).
    intros m H1 Hn.
    destruct Hname as [-> | ->].
    + destruct (findOne (by_username "admin") (users db)) eqn:Ha; simpl.
      * destruct (is_none _); cbn; lia.
      * rewrite (count_username_none _ _ Ha).
        destruct (is_none _); cbn; lia.
    + destruct (findOne (by_username "user") (users db)) eqn:Hu; simpl.
      * destruct (is_none _); cbn; lia.
      * rewrite (count_username_none _ _ Hu).
        destruct (is_none _); cbn; lia.
  - rewrite (seed_disconnected env db Hc). lia.
Qed.

Lemma seed_settled (env : SeedEnv) (db : Db) :
  is_none (findOne (by_username "admin") (users db)) = false ->
  is_none (findOne (by_username "user") (users db)) = false ->
  users (seed env db) = users db.
Proof.
  intros Ha Hu. destruct (connect_ok env) eqn:Hc.
  - rewrite (seed_users env db Hc), Ha, Hu. simpl. apply app_nil_r.
  - now rewrite (seed_disconnected env db Hc).
Qed.

Lemma seed_keeps_characters (env : SeedEnv) (db : Db) :
  characters db <> [] -> characters (seed env db) = characters db.
Proof.
  intros Hne. destruct (connect_ok env) eqn:Hc.
  - rewrite (seed_characters env db Hc).
    destruct (characters db); [contradiction | reflexivity].
  - now rewrite (seed_disconnected env db Hc).
Qed.

(** C7. Let [once] be the database after one run of the seeder and
    [twice] the database after a second run that follows it directly.
    With the environment of the first run the second run changes
    nothing.  Whatever the environment of the second run: if the first
    run reached the database the accounts of [twice] are those of
    [once]; a non-empty character collection of [once] is the one of
    [twice]; so both together make [twice] equal to [once].  Neither
    "admin" nor "user" is carried by more accounts than before, or by
    more than one when it was free; the accounts and a non-empty
    character collection of the start are kept as they were. *)
Theorem seed_twice (env env' : SeedEnv) (db : Db) :
  let once := seed env db in
  let twice := seed env' once in
  seed env once = once /\
  (connect_ok env = true -> users twice = users once) /\
  (characters once <> [] -> characters twice = characters once) /\
  (connect_ok env = true -> characters once <> [] -> twice = once) /\
  (count_username "admin" (users twice)
   <= Nat.max 1 (count_username "admin" (users db)))%nat /\
  (count_username "user" (users twice)
   <= Nat.max 1 (count_username "user" (users db)))%nat /\
  (exists added, users twice = users db ++ added) /\
  (characters db <> [] -> characters twice = characters db) /\
  emblems twice = emblems db.
Proof.
  intros once twice. subst once twice.
  assert (Husers : connect_ok env = true ->
                   forall e, users (seed e (seed env db)) = users (seed env db)).
  { intros Hc e. destruct (seed_accounts_present env db Hc) as [Ha Hu].
    now apply seed_settled. }
  split; [|split; [|split; [|split; [|split; [|split; [|split; [|split]]]]]]].
  - destruct (connect_ok env) eqn:Hc.
    + apply Db_eq.
      * now apply Husers.
      * rewrite (seed_characters env (seed env db) Hc).
        rewrite (seed_characters env db Hc).
        destruct (characters db) eqn:Hchars; [|reflexivity].
        destruct (fetched env) as [data|]; [|reflexivity].
        destruct (fst _); reflexivity.
      * apply seed_emblems.
    + now rewrite !(seed_disconnected env _ Hc).
  - intros Hc. now apply Husers.
  - apply seed_keeps_characters.
  - intros Hc Hne. apply Db_eq.
    + now apply Husers.
    + now apply seed_keeps_characters.
    + apply seed_emblems.
  - etransitivity; [apply seed_count; now left|].
    pose proof (seed_count env db "admin" (or_introl eq_refl)). lia.
  - etransitivity; [apply seed_count; now right|].
    pose proof (seed_count env db "user" (or_intror eq_refl)). lia.
  - assert (Hgrow : forall e d, exists added, users (seed e d) = users d ++ added).
    { intros e d. destruct (connect_ok e) eqn:Hc.
      - rewrite (seed_users e d Hc). eauto.
      - rewrite (seed_disconnected e d Hc). exists []. now rewrite app_nil_r. }
    destruct (Hgrow env db) as [a1 H1].
    destruct (Hgrow env' (seed env db)) as [a2 H2].
    exists (a1 ++ a2). now rewrite H2, H1, app_assoc.
  - intros Hne.
    rewrite seed_keeps_characters; rewrite (seed_keeps_characters env db Hne);
      trivial.
  - now rewrite !seed_emblems.
Qed.

End SeederProperties.

Lemma seed_twice_witness :
  let once := connectAndSeedDatabase toy_hash (seed_env (Some [char_alpha])) db_empty in
  let twice := connectAndSeedDatabase toy_hash (seed_env (Some [char_beta])) once in
  twice = once /\
  List.length (users once) = 2%nat /\ List.length (characters once) = 1%nat.
Proof.
  pose proof (seed_twice toy_hash (seed_env (Some [char_alpha]))
                (seed_env (Some [char_beta])) db_empty)
    as (_ & _ & _ & H & _).
  split; [|split; reflexivity].
  apply H; [reflexivity | discriminate].
Defined.

(** ** Strings *)

Lemma lower_char_capital (a : ascii) :
  capital a -> nat_of_ascii (Js.lower_char a) = (nat_of_ascii a + 32)%nat.
Proof.
  unfold capital, Js.lower_char. intros [H1 H2].
  apply Nat.leb_le in H1 as H1'. apply Nat.leb_le in H2 as H2'.
  rewrite H1', H2'. simpl andb. cbv iota.
  apply nat_ascii_embedding. lia.
Qed.

Lemma lower_char_other (a : ascii) :
  ~ capital a -> Js.lower_char a = a.
Proof.
  unfold capital, Js.lower_char. intros H.
  destruct (65 <=? nat_of_ascii a)%nat eqn:H1;
    destruct (nat_of_ascii a <=? 90)%nat eqn:H2; simpl; trivial.
  apply Nat.leb_le in H1, H2. lia.
Qed.

Lemma capital_dec (a : ascii) : capital a \/ ~ capital a.
Proof. unfold capital. lia. Qed.

Lemma nat_of_ascii_inj (a b : ascii) :
  nat_of_ascii a = nat_of_ascii b -> a = b.
Proof.
  intros H. rewrite <- (ascii_nat_embedding a), <- (ascii_nat_embedding b).
  now rewrite H.
Qed.

(** The letter-case mapping of the code identifies exactly the letters
    that the specification calls the same. *)
Lemma same_letter_lower (a b : ascii) :
  same_letter a b <-> Js.lower_char a = Js.lower_char b.
Proof.
  unfold same_letter. split.
  - intros [-> | [[Ha Hb] | [Hb Ha]]]; [reflexivity | |].
    + apply nat_of_ascii_inj. rewrite (lower_char_capital a Ha).
      rewrite lower_char_other; [auto|]. unfold capital in *. lia.
    + apply nat_of_ascii_inj. rewrite (lower_char_capital b Hb).
      rewrite lower_char_other; [auto|]. unfold capital in *. lia.
  - intros H. apply (f_equal nat_of_ascii) in H.
    destruct (capital_dec a) as [Ha|Ha]; destruct (capital_dec b) as [Hb|Hb].
    + rewrite (lower_char_capital a Ha), (lower_char_capital b Hb) in H.
      left. apply nat_of_ascii_inj. lia.
    + rewrite (lower_char_capital a Ha), (lower_char_other b Hb) in H.
      right. left. split; [assumption | lia].
    + rewrite (lower_char_other a Ha), (lower_char_capital b Hb) in H.
      right. right. split; [assumption | lia].
    + rewrite (lower_char_other a Ha), (lower_char_other b Hb) in H.
      left. now apply nat_of_ascii_inj.
Qed.

Lemma ci_eq_lower (s t : string) :
  ci_eq s t <-> ascii_lower s = ascii_lower t.
Proof.
  split.
  - induction 1 as [|a b s t Hab _ IH]; simpl; [reflexivity|].
    apply same_letter_lower in Hab. congruence.
  - revert t. induction s as [|a s IH]; intros [|b t]; simpl;
      try discriminate; [constructor|].
    intros [= Hab Hst]. constructor; [now apply same_letter_lower | auto].
Qed.

Lemma ascii_lower_append (s t : string) :
  ascii_lower (s ++ t) = (ascii_lower s ++ ascii_lower t)%string.
Proof.
  induction s as [|a s IH]; simpl; congruence.
Qed.

Lemma ascii_lower_split (x u v : string) :
  ascii_lower x = (u ++ v)%string ->
  exists x1 x2, x = (x1 ++ x2)%string /\
                ascii_lower x1 = u /\ ascii_lower x2 = v.
Proof.
  revert x. induction u as [|c u IH]; intros x H; simpl in H.
  - exists ""%string, x. auto.
  - destruct x as [|a x]; simpl in H; [discriminate|].
    injection H as Hc Hx. destruct (IH x Hx) as (x1 & x2 & -> & H1 & H2).
    exists (String a x1), x2. simpl. repeat split; congruence.
Qed.

Lemma prefix_append (t s : string) :
  String.prefix t s = true <-> exists post, s = (t ++ post)%string.
Proof.
  revert s. induction t as [|a t IH]; intros s; simpl.
  - destruct s; split; eauto.
  - destruct s as [|b s]; simpl.
    + split; [discriminate | intros [post H]; discriminate].
    + destruct (ascii_dec a b) as [->|Hne].
      * rewrite IH. split; intros [post H]; exists post; congruence.
      * split; [discriminate | intros [post H]; congruence].
Qed.

(** [includes] is the occurrence of a substring. *)
Lemma includes_spec (s t : string) :
  Js.includes s t = true <->
  exists pre post, s = (pre ++ t ++ post)%string.
Proof.
  induction s as [|a s IH]; cbn [Js.includes].
  - rewrite orb_false_r, prefix_append. split.
    + intros [post H]. exists ""%string, post. exact H.
    + intros ([|c pre] & post & H); [eauto | discriminate].
  - rewrite orb_true_iff, IH, prefix_append. split.
    + intros [[post H] | (pre & post & ->)].
      * exists ""%string, post. exact H.
      * exists (String a pre), post. reflexivity.
    + intros ([|c pre] & post & H).
      * left. exists post. exact H.
      * right. injection H as _ ->. eauto.
Qed.

(** On strings lower-cased byte by byte, inclusion decides the
    containment of the specification. *)
Lemma includes_contains_ci (name s : string) :
  Js.includes (ascii_lower name) (ascii_lower s) = true <->
  contains_ci name s.
Proof.
  rewrite includes_spec. unfold contains_ci. split.
  - intros (pre' & post' & H).
    apply ascii_lower_split in H as (pre & rest & -> & Hpre & H).
    apply ascii_lower_split in H as (mid & post & -> & Hmid & Hpost).
    exists pre, mid, post. split; [reflexivity|]. now apply ci_eq_lower.
  - intros (pre & mid & post & -> & H). apply ci_eq_lower in H.
    exists (ascii_lower pre), (ascii_lower post).
    now rewrite !ascii_lower_append, H.
Qed.

Lemma contains_ci_empty (name : string) : contains_ci name "".
Proof.
  exists ""%string, ""%string, name. split; [reflexivity | constructor].
Qed.

(** *** The lower-case conversion *)

Lemma string_append_assoc (a b c : string) :
  ((a ++ b) ++ c = a ++ (b ++ c))%string.
Proof. induction a as [|x a IH]; simpl; congruence. Qed.

Lemma string_append_empty (a : string) : (a ++ "" = a)%string.
Proof. induction a as [|x a IH]; simpl; congruence. Qed.

Lemma concat_empty_cons (x : string) (l : list string) :
  String.concat "" (x :: l) = (x ++ String.concat "" l)%string.
Proof.
  destruct l as [|y l]; simpl; [now rewrite string_append_empty | reflexivity].
Qed.

(** The characters of a string make up the string. *)
Lemma chars_concat (s : string) : String.concat "" (Js.chars s) = s.
Proof.
  induction s as [|b s IH]; [reflexivity|].
  cbn [Js.chars]. destruct (Js.chars s) as [|c cs] eqn:Hc.
  - simpl in IH. subst s. reflexivity.
  - destruct (negb (Js.is_ascii_byte b) && Js.starts_continued c).
    + rewrite concat_empty_cons in IH. rewrite concat_empty_cons.
      simpl. now rewrite IH.
    + rewrite concat_empty_cons. cbn [append]. now rewrite IH.
Qed.

(** An ASCII byte is a character of its own. *)
Lemma chars_ascii_byte (b : ascii) (s : string) :
  Js.is_ascii_byte b = true ->
  Js.chars (String b s) = String b "" :: Js.chars s.
Proof.
  intros Hb. cbn [Js.chars]. rewrite Hb. simpl.
  destruct (Js.chars s); reflexivity.
Qed.

Lemma sigma_is_not_ascii (b : ascii) :
  Js.is_ascii_byte b = true -> (String b "" =? "Σ")%string = false.
Proof.
  intros _. apply String.eqb_neq. discriminate.
Qed.

Section LowerCase.

Context {U : Js.Unicode}.

(** On a string of ASCII characters the conversion is the byte by byte
    one, whatever the tables say beyond ASCII. *)
Lemma toLowerCase_ascii (s : string) :
  all_ascii s -> Js.toLowerCase s = ascii_lower s.
Proof.
  unfold Js.toLowerCase. generalize (@nil string).
  induction s as [|b s IH]; intros before Hs; [reflexivity|].
  destruct Hs as [Hb Hs]. rewrite (chars_ascii_byte b s Hb).
  cbn [Js.lower_chars]. rewrite (sigma_is_not_ascii b Hb), concat_empty_cons.
  rewrite (IH _ Hs). unfold Js.lower_of, Js.ascii_char. rewrite Hb. reflexivity.
Qed.

Lemma toLowerCase_empty : Js.toLowerCase "" = ""%string.
Proof. reflexivity. Qed.

Lemma letter_pair (a b : ascii) :
  a <> b -> same_letter a b ->
  Js.is_ascii_byte a = true /\ Js.is_ascii_byte b = true /\
  Js.ascii_letter a = true /\ Js.ascii_letter b = true /\
  Js.ascii_ignorable a = false /\ Js.ascii_ignorable b = false /\
  Js.lower_char a = Js.lower_char b.
Proof.
  intros Hne Hs. pose proof (proj1 (same_letter_lower a b) Hs) as Hl.
  unfold Js.is_ascii_byte, Js.ascii_letter, Js.ascii_ignorable.
  destruct Hs as [-> | [[Hc Hb] | [Hc Ha]]]; [congruence | |];
    unfold capital in Hc;
    repeat split; trivial;
    repeat match goal with
           | |- context [(?x <=? ?y)%nat] => destruct (Nat.leb_spec x y)
           | |- context [(?x <? ?y)%nat] => destruct (Nat.ltb_spec x y)
           | |- context [(?x =? ?y)%nat] => destruct (Nat.eqb_spec x y)
           end; simpl; trivial; lia.
Qed.

Lemma char_ci_facts (c c' : string) :
  char_ci c c' ->
  (c =? "Σ")%string = (c' =? "Σ")%string /\
  Js.lower_of c = Js.lower_of c' /\
  Js.cased c = Js.cased c' /\
  Js.case_ignorable c = Js.case_ignorable c' /\
  Js.starts_continued c = Js.starts_continued c'.
Proof.
  intros [-> | (a & b & -> & -> & Hne & Hs)]; [repeat split|].
  destruct (letter_pair a b Hne Hs) as (Ha & Hb & Hla & Hlb & Hia & Hib & Hl).
  rewrite (sigma_is_not_ascii a Ha), (sigma_is_not_ascii b Hb).
  unfold Js.lower_of, Js.cased, Js.case_ignorable, Js.ascii_char.
  rewrite Ha, Hb, Hla, Hlb, Hia, Hib, Hl. repeat split.
  unfold Js.starts_continued, Js.continuation.
  unfold Js.is_ascii_byte in Ha, Hb. apply Nat.ltb_lt in Ha, Hb.
  destruct (Nat.leb_spec 128 (nat_of_ascii a)); [lia|].
  destruct (Nat.leb_spec 128 (nat_of_ascii b)); [lia | reflexivity].
Qed.

Lemma cased_past_ignorables_ci (l l' : list string) :
  Forall2 char_ci l l' ->
  Js.cased_past_ignorables l = Js.cased_past_ignorables l'.
Proof.
  induction 1 as [|c c' l l' Hc _ IH]; [reflexivity|]. simpl.
  destruct (char_ci_facts c c' Hc) as (_ & _ & Hcased & Hign & _).
  now rewrite Hcased, Hign, IH.
Qed.

Lemma lower_chars_ci (l l' : list string) :
  Forall2 char_ci l l' ->
  forall before before',
    Forall2 char_ci before before' ->
    Js.lower_chars before l = Js.lower_chars before' l'.
Proof.
  induction 1 as [|c c' l l' Hc Hl IH]; intros before before' Hb; [reflexivity|].
  cbn [Js.lower_chars].
  destruct (char_ci_facts c c' Hc) as (Hsig & Hlow & _).
  rewrite Hsig, Hlow. unfold Js.final_sigma.
  rewrite (cased_past_ignorables_ci before before' Hb).
  rewrite (cased_past_ignorables_ci l l' Hl).
  f_equal. apply IH. now constructor.
Qed.

Lemma chars_ci (s s' : string) :
  ci_eq s s' -> Forall2 char_ci (Js.chars s) (Js.chars s').
Proof.
  induction 1 as [|a b s t Hab _ IH]; [constructor|].
  cbn [Js.chars].
  destruct (ascii_dec a b) as [<- | Hne].
  - destruct IH as [|c c' cs cs' Hc Hcs]; [repeat constructor; now left|].
    destruct (char_ci_facts c c' Hc) as (_ & _ & _ & _ & Hcont).
    rewrite <- Hcont.
    destruct (negb (Js.is_ascii_byte a) && Js.starts_continued c) eqn:Hjoin.
    + constructor; [|exact Hcs]. left. f_equal.
      destruct Hc as [-> | (x & y & -> & -> & Hxy & Hs)]; [reflexivity|].
      exfalso. destruct (letter_pair x y Hxy Hs) as (Hx & _).
      apply andb_true_iff in Hjoin as [_ Hjoin].
      unfold Js.starts_continued, Js.continuation in Hjoin.
      unfold Js.is_ascii_byte in Hx. apply Nat.ltb_lt in Hx.
      apply andb_true_iff in Hjoin as [Hjoin _]. apply Nat.leb_le in Hjoin. lia.
    + constructor; [now left|]. now constructor.
  - destruct (letter_pair a b Hne Hab) as (Ha & Hb & _).
    rewrite Ha, Hb. simpl.
    assert (Hpair : char_ci (String a "") (String b "")).
    { right. exists a, b. auto. }
    destruct IH; constructor; trivial; constructor; trivial.
Qed.

(** Strings that are equal up to the case of their ASCII letters have
    the same lower-case form. *)
Lemma toLowerCase_ci_eq (s s' : string) :
  ci_eq s s' -> Js.toLowerCase s = Js.toLowerCase s'.
Proof.
  intros H. unfold Js.toLowerCase. f_equal.
  apply lower_chars_ci; [now apply chars_ci | constructor].
Qed.

Lemma lower_contains_includes (name s : string) :
  Js.includes (Js.toLowerCase name) (Js.toLowerCase s) = true <->
  lower_contains name s.
Proof. apply includes_spec. Qed.

Lemma lower_contains_empty (name : string) : lower_contains name "".
Proof.
  exists ""%string, (Js.toLowerCase name). reflexivity.
Qed.

(** For ASCII strings the test of the filter is the containment of the
    specification. *)
Lemma lower_contains_ascii (name s : string) :
  all_ascii name -> all_ascii s ->
  (lower_contains name s <-> contains_ci name s).
Proof.
  intros Hn Hs. rewrite <- lower_contains_includes.
  rewrite (toLowerCase_ascii name Hn), (toLowerCase_ascii s Hs).
  apply includes_contains_ci.
Qed.

Lemma filter_step_In (s : string) (C : list Character.t) (c : Character.t) :
  In c (filter_step s C) <-> In c C /\ lower_contains (Character.name c) s.
Proof.
  unfold filter_step. destruct (String.eqb_spec s "") as [->|Hs].
  - split; [|tauto]. intros H. split; [exact H | apply lower_contains_empty].
  - rewrite filter_In, lower_contains_includes. tauto.
Qed.

(** ** Roster query: filter *)

(** C2, amended.  The filter step keeps, in their order, exactly the
    records whose lower-cased name includes the lower-cased search
    string: a record is returned if and only if it is in the collection
    and passes that test, and the empty search string returns the
    collection as it is.  When the name and the search string are ASCII
    the test is the containment of the search string as a
    case-insensitive substring. *)
Theorem filter_step_lower_contains (s : string) (C : list Character.t) :
  (forall c, In c (filter_step s C) <->
             In c C /\ lower_contains (Character.name c) s) /\
  (exists keep : Character.t -> bool,
      filter_step s C = filter keep C /\
      forall c, keep c = true <-> lower_contains (Character.name c) s) /\
  (s = ""%string -> filter_step s C = C) /\
  (all_ascii s ->
   forall c, all_ascii (Character.name c) ->
             (In c (filter_step s C) <->
              In c C /\ contains_ci (Character.name c) s)).
Proof.
  split; [intros c; apply filter_step_In|]. split; [|split].
  - exists (fun c => Js.includes (Js.toLowerCase (Character.name c))
                                 (Js.toLowerCase s)).
    split; [|intros c; apply lower_contains_includes].
    unfold filter_step. destruct (String.eqb_spec s "") as [->|Hs]; [|reflexivity].
    symmetry. apply forallb_filter_id. apply forallb_forall.
    intros c _. apply lower_contains_includes, lower_contains_empty.
  - intros ->. reflexivity.
  - intros Hs c Hc. rewrite filter_step_In.
    now rewrite (lower_contains_ascii _ _ Hc Hs).
Qed.

End LowerCase.

(** C2 as the specification words it does not hold: the name of
    [char_sigma] contains the search string, letter for letter, and the
    filter leaves the record out, because the sigma that ends the name
    is lower-cased to the final form and the sigma searched for is
    not. *)
Lemma filter_misses_final_sigma :
  contains_ci (Character.name char_sigma) "Σ" /\
  In char_sigma [char_sigma; char_elan] /\
  ~ In char_sigma (filter_step "Σ" [char_sigma; char_elan]).
Proof.
  split; [|split].
  - exists "Α"%string, "Σ"%string, ""%string. split; [reflexivity|].
    repeat constructor; now left.
  - now left.
  - intros H. vm_compute in H. exact H.
Qed.

Lemma filter_step_lower_contains_witness :
  filter_step "" [char_alpha; char_beta] = [char_alpha; char_beta] /\
  (In char_beta (filter_step "ET" [char_alpha; char_beta]) <->
   In char_beta [char_alpha; char_beta] /\ contains_ci "Beta" "ET").
Proof.
  pose proof (filter_step_lower_contains "" [char_alpha; char_beta])
    as (_ & _ & Hid & _).
  pose proof (filter_step_lower_contains "ET" [char_alpha; char_beta])
    as (_ & _ & _ & Hascii).
  split; [exact (Hid eq_refl)|].
  apply (Hascii ltac:(repeat split) char_beta ltac:(repeat split)).
Defined.

(** The filter on names beyond ASCII, with the tables of
    [latin_greek]. *)
Example filter_beyond_ascii :
  filter_step "é" [char_sigma; char_elan] = [char_elan] /\
  filter_step "ας" [char_sigma; char_elan] = [char_sigma] /\
  Js.toLowerCase "ΑΣ" = "ας"%string /\ Js.toLowerCase "Σ" = "σ"%string.
Proof. repeat split. Qed.

(** ** Sorting *)

(** *** Sequences in order *)

Lemma sorted_weaken {A : Type} (R R' : A -> A -> Prop) (l : list A) :
  (forall a b, R a b -> R' a b) -> Sorted R l -> Sorted R' l.
Proof.
  intros HR. induction 1 as [|x l _ IH Hx]; constructor; trivial.
  destruct Hx; constructor; auto.
Qed.

Lemma sorted_snoc {A : Type} (R : A -> A -> Prop) (m : list A) (x : A) :
  Sorted R m ->
  (forall y, hd_error (rev m) = Some y -> R y x) ->
  Sorted R (m ++ [x]).
Proof.
  induction 1 as [|a m Hm IH Ha]; intros Hlast; simpl.
  - repeat constructor.
  - constructor.
    + apply IH. intros y Hy. apply Hlast. simpl.
      destruct (rev m); simpl in *; [discriminate | exact Hy].
    + destruct Ha as [|b m' Hab]; simpl; constructor; [|exact Hab].
      apply Hlast. reflexivity.
Qed.

Lemma sorted_rev {A : Type} (R : A -> A -> Prop) (l : list A) :
  Sorted R l -> Sorted (fun a b => R b a) (rev l).
Proof.
  induction 1 as [|x l Hl IH Hx]; simpl; [constructor|].
  apply sorted_snoc; [exact IH|].
  intros y Hy. rewrite rev_involutive in Hy.
  destruct Hx as [|b l' Hxb]; simpl in Hy; [discriminate|].
  now injection Hy as <-.
Qed.

Lemma sorted_when_all_tie {A : Type} (cmp : A -> A -> Z) (l : list A) :
  (forall a b, (cmp a b <= 0)%Z) -> Sorted (fun a b => (cmp a b <= 0)%Z) l.
Proof.
  intros H. induction l as [|x l IH]; constructor; trivial.
  destruct l; constructor. apply H.
Qed.

Lemma sorted_skipn {A : Type} (R : A -> A -> Prop) (p : nat) (l : list A) :
  Sorted R l -> Sorted R (skipn p l).
Proof.
  revert l. induction p as [|p IH]; intros l Hl; [exact Hl|].
  destruct l as [|x l]; [constructor|]. simpl. apply IH.
  now apply Sorted_inv in Hl.
Qed.

Lemma skipn_at {A : Type} (p : nat) (l : list A) (x : A) :
  nth_error l p = Some x -> exists tl, skipn p l = x :: tl.
Proof.
  revert l. induction p as [|p IH]; intros [|y l]; simpl; try discriminate.
  - intros [= ->]. eauto.
  - apply IH.
Qed.

(** An element may be put into a sequence in order between a
    predecessor and a successor that agree with it. *)
Lemma sorted_insert_at {A : Type} (R : A -> A -> Prop) (x : A)
      (l : list A) (p : nat) :
  Sorted R l -> (p <= List.length l)%nat ->
  (p = 0%nat \/ exists y, nth_error l (p - 1) = Some y /\ R y x) ->
  (p = List.length l \/ exists z, nth_error l p = Some z /\ R x z) ->
  Sorted R (firstn p l ++ x :: skipn p l).
Proof.
  intros Hl. revert p. induction Hl as [|a l Hl IH Ha]; intros p Hp Hbefore Hafter.
  - simpl in Hp. assert (p = 0%nat) as -> by lia. repeat constructor.
  - destruct p as [|p]; simpl.
    + destruct Hafter as [Hafter | (z & Hz & Hxz)]; [discriminate|].
      injection Hz as <-. repeat constructor; assumption.
    + simpl in Hp.
      destruct Hbefore as [Hbefore | (y & Hy & Hyx)]; [discriminate|].
      simpl in Hy. rewrite Nat.sub_0_r in Hy.
      constructor.
      * apply IH; [lia | |].
        -- destruct p as [|p]; [now left|]. right. exists y.
           simpl in *. rewrite Nat.sub_0_r. split; assumption.
        -- destruct Hafter as [Hafter | (z & Hz & Hxz)]; [left; simpl in *; lia|].
           right. exists z. split; assumption.
      * destruct p as [|p]; simpl.
        -- injection Hy as <-. now constructor.
        -- destruct Ha as [|b l' Hab]; [simpl in Hp; lia|]. now constructor.
Qed.

(** Putting an element into a sequence at a place behind which no
    member of its class stands is, for the class, putting it at the
    end. *)
Lemma filter_insert_at {A : Type} (q : A -> bool) (x : A) (l : list A) (p : nat) :
  (q x = true -> forall y, In y (skipn p l) -> q y = false) ->
  filter q (firstn p l ++ x :: skipn p l) = filter q (l ++ [x]).
Proof.
  intros Hq. rewrite <- (firstn_skipn p l) at 3.
  rewrite !filter_app. cbn [filter]. destruct (q x) eqn:Hx.
  - assert (Hnone : filter q (skipn p l) = []).
    { specialize (Hq eq_refl).
      induction (skipn p l) as [|y m IH]; [reflexivity|]. simpl.
      rewrite (Hq y (or_introl eq_refl)). apply IH.
      intros z Hz. apply Hq. now right. }
    rewrite Hnone. now rewrite app_nil_r.
  - now rewrite app_nil_r.
Qed.

Lemma sorted_head_rel {A : Type} (R : A -> A -> Prop) (D : A -> Prop)
      (x : A) (l : list A) :
  (forall a b c, D a -> D b -> D c -> R a b -> R b c -> R a c) ->
  Forall D (x :: l) -> Sorted R (x :: l) ->
  forall y, In y l -> R x y.
Proof.
  intros Htrans.
  revert x. induction l as [|z l IH]; intros x HD Hs y Hy; [contradiction|].
  apply Sorted_inv in Hs as [Hs Hx]. apply HdRel_inv in Hx.
  destruct Hy as [<- | Hy]; [exact Hx|].
  apply Forall_inv_tail in HD as HD'.
  pose proof (IH z HD' Hs y Hy) as Hzy.
  apply (Htrans x z y); trivial.
  - now apply Forall_inv in HD.
  - now apply Forall_inv in HD'.
  - apply Forall_inv_tail in HD'. rewrite Forall_forall in HD'. auto.
Qed.

Section SortProperties.

Context {A : Type} (cmp : A -> A -> Z).

Local Abbreviation in_order := (fun a b => (cmp a b <= 0)%Z).
Local Abbreviation run_order descending :=
  (fun a b => if descending : bool then (cmp b a < 0)%Z else (0 <= cmp b a)%Z).

(** *** The first run *)

Lemma extend_run_app (descending : bool) (previous : A) (l : list A) :
  (fst (Js.extend_run cmp descending previous l)
   ++ snd (Js.extend_run cmp descending previous l)) = l.
Proof.
  revert previous. induction l as [|current l IH]; intros previous; [reflexivity|].
  cbn [Js.extend_run].
  destruct (if descending then _ else _); [reflexivity|].
  specialize (IH current).
  destruct (Js.extend_run cmp descending current l) as [run rest].
  simpl in *. now rewrite IH.
Qed.

Lemma extend_run_sorted (descending : bool) (previous : A) (l : list A) :
  Sorted (run_order descending)
         (previous :: fst (Js.extend_run cmp descending previous l)).
Proof.
  revert previous. induction l as [|current l IH]; intros previous.
  - repeat constructor.
  - cbn [Js.extend_run].
    destruct (if descending then (0 <=? cmp current previous)%Z
              else (cmp current previous <? 0)%Z) eqn:Hstop;
      [repeat constructor|].
    specialize (IH current).
    destruct (Js.extend_run cmp descending current l) as [run rest].
    simpl in *. constructor; [exact IH|]. constructor.
    destruct descending; [apply Z.leb_gt in Hstop | apply Z.ltb_ge in Hstop];
      exact Hstop.
Qed.

(** The first run and the elements behind it: [whole] is the front of
    the sequence as it stood, in ascending or in strictly descending
    order, and the run is [whole], reversed when descending. *)
Lemma count_and_make_run_spec (l : list A) :
  exists (descending : bool) (whole : list A),
    l = whole ++ snd (Js.count_and_make_run cmp l) /\
    fst (Js.count_and_make_run cmp l) = (if descending then rev whole else whole) /\
    Sorted (run_order descending) whole.
Proof.
  destruct l as [|low [|next l]].
  - exists false, []. repeat split. constructor.
  - exists false, [low]. repeat split. repeat constructor.
  - cbn [Js.count_and_make_run].
    pose proof (extend_run_app (cmp next low <? 0)%Z next l) as Happ.
    pose proof (extend_run_sorted (cmp next low <? 0)%Z next l) as Hsorted.
    destruct (Js.extend_run cmp (cmp next low <? 0)%Z next l) as [run rest].
    simpl in Happ, Hsorted.
    exists (cmp next low <? 0)%Z, (low :: next :: run). cbn [fst snd].
    split; [simpl; now rewrite Happ|]. split; [reflexivity|].
    constructor; [exact Hsorted|]. constructor.
    destruct (Z.ltb_spec (cmp next low) 0); assumption.
Qed.

(** *** The binary search *)

Lemma search_spec (pivot : A) (work : list A) (fuel left right : nat) :
  (left <= right <= List.length work)%nat -> (right - left <= fuel)%nat ->
  (left = 0%nat \/
   exists y, nth_error work (left - 1) = Some y /\ (0 <= cmp pivot y)%Z) ->
  (right = List.length work \/
   exists x, nth_error work right = Some x /\ (cmp pivot x < 0)%Z) ->
  let p := Js.search cmp fuel pivot work left right in
  (p <= List.length work)%nat /\
  (p = 0%nat \/
   exists y, nth_error work (p - 1) = Some y /\ (0 <= cmp pivot y)%Z) /\
  (p = List.length work \/
   exists x, nth_error work p = Some x /\ (cmp pivot x < 0)%Z).
Proof.
  revert left right. induction fuel as [|fuel IH]; intros left right Hb Hf Hl Hr.
  - simpl. assert (left = right) by lia. subst right. repeat split; trivial. lia.
  - cbn [Js.search]. destruct (Nat.ltb_spec left right) as [Hlt|Hge].
    + assert (Hhalf : ((right - left) / 2 < right - left)%nat)
        by (apply Nat.div_lt; lia).
      set (mid := (left + (right - left) / 2)%nat) in *.
      assert (Hmid : (left <= mid < right)%nat) by (unfold mid; lia).
      destruct (nth_error work mid) as [x|] eqn:Hx.
      * destruct (Z.ltb_spec (cmp pivot x) 0) as [Hlow|Hhigh].
        -- apply IH; trivial; [lia | lia |]. right. eauto.
        -- apply IH; trivial; [lia | lia |]. right. exists x.
           simpl. rewrite Nat.sub_0_r. split; trivial.
      * apply nth_error_None in Hx. lia.
    + assert (left = right) by lia. subst right. repeat split; trivial. lia.
Qed.

Lemma binary_insert_place (work : list A) (pivot : A) :
  let p := Js.search cmp (List.length work) pivot work 0 (List.length work) in
  (p <= List.length work)%nat /\
  (p = 0%nat \/
   exists y, nth_error work (p - 1) = Some y /\ (0 <= cmp pivot y)%Z) /\
  (p = List.length work \/
   exists x, nth_error work p = Some x /\ (cmp pivot x < 0)%Z).
Proof.
  apply search_spec; [lia | lia | now left | now left].
Qed.

(** *** The result holds the elements of the input *)

Lemma binary_insert_permutation (work : list A) (pivot : A) :
  Permutation (Js.binary_insert cmp work pivot) (work ++ [pivot]).
Proof.
  unfold Js.binary_insert.
  set (p := Js.search cmp _ _ _ _ _).
  rewrite <- (firstn_skipn p work) at 3. rewrite <- app_assoc.
  apply Permutation_app_head.
  change (pivot :: skipn p work) with ([pivot] ++ skipn p work).
  apply Permutation_app_comm.
Qed.

Lemma insert_all_permutation (rest run : list A) :
  Permutation (fold_left (Js.binary_insert cmp) rest run) (run ++ rest).
Proof.
  revert run. induction rest as [|x rest IH]; intros run; simpl.
  - now rewrite app_nil_r.
  - rewrite IH, binary_insert_permutation, <- app_assoc. reflexivity.
Qed.

Lemma sort_permutation (l : list A) : Permutation (Js.sort cmp l) l.
Proof.
  unfold Js.sort.
  destruct (count_and_make_run_spec l) as (descending & whole & Hl & Hrun & _).
  destruct (Js.count_and_make_run cmp l) as [run rest]. simpl in Hl, Hrun.
  rewrite insert_all_permutation. rewrite Hl. apply Permutation_app_tail.
  subst run. destruct descending; [symmetry; apply Permutation_rev | reflexivity].
Qed.

(** *** With a comparator that answers [b], [a] with the opposite of
    its answer to [a], [b] *)

Hypothesis cmp_antisym : forall a b, cmp b a = (- cmp a b)%Z.

Lemma run_in_order (descending : bool) (whole : list A) :
  Sorted (run_order descending) whole ->
  Sorted in_order (if descending then rev whole else whole).
Proof.
  intros H. destruct descending.
  - apply sorted_rev in H. revert H. apply sorted_weaken. intros a b. lia.
  - revert H. apply sorted_weaken. intros a b. rewrite (cmp_antisym a b). lia.
Qed.

Lemma binary_insert_sorted (work : list A) (pivot : A) :
  Sorted in_order work -> Sorted in_order (Js.binary_insert cmp work pivot).
Proof.
  intros Hw. unfold Js.binary_insert.
  destruct (binary_insert_place work pivot) as (Hp & Hbefore & Hafter).
  apply sorted_insert_at; trivial.
  - destruct Hbefore as [Hbefore | (y & Hy & Hyx)]; [now left|].
    right. exists y. split; [exact Hy|]. rewrite (cmp_antisym pivot y). lia.
  - destruct Hafter as [Hafter | (x & Hx & Hpx)]; [now left|].
    right. exists x. split; [exact Hx | lia].
Qed.

Lemma insert_all_sorted (rest run : list A) :
  Sorted in_order run ->
  Sorted in_order (fold_left (Js.binary_insert cmp) rest run).
Proof.
  revert run. induction rest as [|x rest IH]; intros run Hrun; [exact Hrun|].
  simpl. apply IH. now apply binary_insert_sorted.
Qed.

Lemma sort_sorted (l : list A) : Sorted in_order (Js.sort cmp l).
Proof.
  unfold Js.sort.
  destruct (count_and_make_run_spec l) as (descending & whole & _ & Hrun & Hs).
  destruct (Js.count_and_make_run cmp l) as [run rest]. simpl in Hrun.
  apply insert_all_sorted. subst run. now apply run_in_order.
Qed.

Lemma extend_run_whole (previous : A) (l : list A) :
  Sorted in_order (previous :: l) ->
  Js.extend_run cmp false previous l = (l, []).
Proof.
  revert previous. induction l as [|current l IH]; intros previous Hs; [reflexivity|].
  cbn [Js.extend_run]. apply Sorted_inv in Hs as [Hs Hh]. apply HdRel_inv in Hh.
  rewrite (cmp_antisym previous current).
  destruct (Z.ltb_spec (- cmp previous current) 0); [lia|].
  now rewrite (IH current Hs).
Qed.

(** A sequence in which no element wants to move behind its successor
    is one run, and is left as it is. *)
Lemma sort_fixes_sorted (l : list A) :
  Sorted in_order l -> Js.sort cmp l = l.
Proof.
  intros Hs. unfold Js.sort. destruct l as [|low [|next l]]; try reflexivity.
  cbn [Js.count_and_make_run].
  apply Sorted_inv in Hs as [Hs Hh]. apply HdRel_inv in Hh.
  rewrite (cmp_antisym low next).
  destruct (Z.ltb_spec (- cmp low next) 0); [lia|].
  now rewrite (extend_run_whole next l Hs).
Qed.


(** *** With a comparator that is consistent on a domain

    Elements that a class [q] holds together, and that tie with one
    another, keep their order. *)

Variable D : A -> Prop.
Variable q : A -> bool.

Hypothesis cmp_trans :
  forall a b c, D a -> D b -> D c ->
                (cmp a b <= 0)%Z -> (cmp b c <= 0)%Z -> (cmp a c <= 0)%Z.
Hypothesis class_ties :
  forall x y, q x = true -> q y = true -> (cmp x y <= 0)%Z.

Lemma descends_trans (a b c : A) :
  D a -> D b -> D c -> (cmp b a < 0)%Z -> (cmp c b < 0)%Z -> (cmp c a < 0)%Z.
Proof.
  intros Ha Hb Hc Hba Hcb.
  destruct (Z.lt_ge_cases (cmp c a) 0) as [H|H]; [exact H|]. exfalso.
  assert (Hac : (cmp a c <= 0)%Z) by (rewrite (cmp_antisym c a); lia).
  assert (Hcb' : (cmp c b <= 0)%Z) by lia.
  pose proof (cmp_trans a c b Ha Hc Hb Hac Hcb') as Hab.
  rewrite (cmp_antisym b a) in Hab. lia.
Qed.

Lemma descending_run_class (whole : list A) :
  Forall D whole -> Sorted (run_order true) whole ->
  filter q (rev whole) = filter q whole.
Proof.
  intros HD Hs. rewrite filter_rev.
  assert (Hone : (List.length (filter q whole) <= 1)%nat).
  { induction whole as [|x l IH]; simpl; [lia|].
    assert (Hl : (List.length (filter q l) <= 1)%nat).
    { apply IH; [now apply Forall_inv_tail in HD | now apply Sorted_inv in Hs]. }
    destruct (q x) eqn:Hx; [|exact Hl].
    assert (Hnone : forall y, In y l -> q y = false).
    { intros y Hy. destruct (q y) eqn:Hqy; [|reflexivity]. exfalso.
      pose proof (sorted_head_rel (fun a b => (cmp b a < 0)%Z) D x l
                    descends_trans HD Hs y Hy) as Hyx.
      pose proof (class_ties x y Hx Hqy) as Hxy.
      cbv beta in Hyx. rewrite (cmp_antisym y x) in Hxy. lia. }
    clear - Hnone. induction l as [|y l IH]; simpl; [lia|].
    rewrite (Hnone y (or_introl eq_refl)). apply IH.
    intros z Hz. apply Hnone. now right. }
  destruct (filter q whole) as [|x [|y m]]; simpl in *; trivial. lia.
Qed.

Lemma binary_insert_stable (work : list A) (pivot : A) :
  Forall D work -> D pivot -> Sorted in_order work ->
  filter q (Js.binary_insert cmp work pivot) = filter q (work ++ [pivot]).
Proof.
  intros HD Hpivot Hs. unfold Js.binary_insert.
  destruct (binary_insert_place work pivot) as (_ & _ & Hafter).
  set (p := Js.search cmp _ _ _ _ _) in *.
  apply filter_insert_at. intros Hq y Hy.
  destruct Hafter as [Hafter | (x & Hx & Hpx)].
  - rewrite Hafter, skipn_all in Hy. contradiction.
  - destruct (q y) eqn:Hqy; [|reflexivity]. exfalso.
    destruct (skipn_at _ _ _ Hx) as (tl & Htl).
    assert (HD' : Forall D (x :: tl)).
    { rewrite <- Htl. rewrite <- (firstn_skipn p work) in HD.
      now apply Forall_app in HD. }
    assert (Hs' : Sorted in_order (x :: tl))
      by (rewrite <- Htl; now apply sorted_skipn).
    assert (Hxy : (cmp x y <= 0)%Z).
    { rewrite Htl in Hy. destruct Hy as [<- | Hy].
      - pose proof (cmp_antisym x x). lia.
      - exact (sorted_head_rel (fun a b => (cmp a b <= 0)%Z) D x tl
                 cmp_trans HD' Hs' y Hy). }
    assert (Hdy : D y).
    { rewrite Forall_forall in HD'. apply HD'. rewrite <- Htl. exact Hy. }
    pose proof (class_ties y pivot Hqy Hq) as Hyp.
    pose proof (cmp_trans x y pivot (Forall_inv HD') Hdy Hpivot Hxy Hyp) as Hxp.
    rewrite (cmp_antisym pivot x) in Hxp. lia.
Qed.

Lemma insert_all_stable (rest run : list A) :
  Forall D run -> Forall D rest -> Sorted in_order run ->
  filter q (fold_left (Js.binary_insert cmp) rest run) = filter q (run ++ rest).
Proof.
  revert run. induction rest as [|x rest IH]; intros run Hrun Hrest Hs; simpl.
  - now rewrite app_nil_r.
  - rewrite IH.
    + rewrite filter_app, binary_insert_stable;
        [| exact Hrun | now apply Forall_inv in Hrest | exact Hs].
      rewrite <- filter_app, <- app_assoc. reflexivity.
    + rewrite Forall_forall in *. intros y Hy.
      apply (Permutation_in _ (binary_insert_permutation run x)) in Hy.
      apply in_app_or in Hy as [Hy | [<- | []]]; auto. apply Hrest. now left.
    + now apply Forall_inv_tail in Hrest.
    + now apply binary_insert_sorted.
Qed.

Lemma sort_stable (l : list A) :
  Forall D l -> filter q (Js.sort cmp l) = filter q l.
Proof.
  intros HD. unfold Js.sort.
  destruct (count_and_make_run_spec l) as (descending & whole & Hl & Hrun & Hs).
  destruct (Js.count_and_make_run cmp l) as [run rest]. simpl in Hl, Hrun.
  rewrite Hl in HD. apply Forall_app in HD as [Hwhole Hrest].
  rewrite insert_all_stable; trivial.
  - rewrite Hl. rewrite !filter_app. f_equal. subst run.
    destruct descending; [now apply descending_run_class | reflexivity].
  - subst run. destruct descending; [|exact Hwhole].
    rewrite Forall_forall in *. intros y Hy. apply Hwhole. now apply in_rev.
  - subst run. now apply run_in_order.
Qed.

End SortProperties.

(** *** A sorted and stable arrangement is unique

    For a comparator that is consistent on a domain [D] there is one
    arrangement of a sequence that is sorted and keeps the order inside
    every class of ties: every sort that meets the standard returns what
    the model returns. *)

Section Unique.

Context {A : Type} (cmp : A -> A -> Z) (same : A -> A -> bool) (D : A -> Prop).

Local Abbreviation in_order := (fun a b => (cmp a b <= 0)%Z).

Hypothesis cmp_trans :
  forall a b c, D a -> D b -> D c ->
                (cmp a b <= 0)%Z -> (cmp b c <= 0)%Z -> (cmp a c <= 0)%Z.
Hypothesis same_refl : forall a, same a a = true.
Hypothesis tie_same :
  forall a b, D a -> D b -> (cmp a b <= 0)%Z -> (cmp b a <= 0)%Z -> same a b = true.

Lemma sorted_head_least (x : A) (l : list A) :
  Forall D (x :: l) -> Sorted in_order (x :: l) ->
  forall y, In y l -> (cmp x y <= 0)%Z.
Proof.
  revert x. induction l as [|z l IH]; intros x HD Hs y Hy; [contradiction|].
  apply Sorted_inv in Hs as [Hs Hx]. apply HdRel_inv in Hx.
  destruct Hy as [<- | Hy]; [exact Hx|].
  apply Forall_inv_tail in HD as HD'.
  pose proof (IH z HD' Hs y Hy) as Hzy.
  apply (cmp_trans x z y); trivial.
  - now apply Forall_inv in HD.
  - now apply Forall_inv in HD'.
  - apply Forall_inv_tail in HD'. rewrite Forall_forall in HD'. auto.
Qed.

Lemma in_own_class (x : A) (l : list A) :
  In x l <-> In x (filter (same x) l).
Proof.
  rewrite filter_In. split; [|tauto]. intros H. split; [exact H | apply same_refl].
Qed.

Lemma stable_sorted_unique (l1 l2 : list A) :
  Forall D l1 -> Forall D l2 ->
  Sorted in_order l1 -> Sorted in_order l2 ->
  (forall x, filter (same x) l1 = filter (same x) l2) ->
  l1 = l2.
Proof.
  revert l2. induction l1 as [|x l1 IH]; intros l2 HD1 HD2 Hs1 Hs2 Hst.
  - destruct l2 as [|y l2]; [reflexivity|].
    specialize (Hst y). simpl in Hst. rewrite same_refl in Hst. discriminate.
  - destruct l2 as [|y l2].
    { specialize (Hst x). simpl in Hst. rewrite same_refl in Hst. discriminate. }
    assert (Hxy : same x y = true).
    { destruct (same x y) eqn:Hxy; [reflexivity|].
      assert (Hyx : y <> x) by (intros ->; rewrite same_refl in Hxy; discriminate).
      assert (Hy1 : In y l1).
      { assert (H : In y (x :: l1)).
        { apply (proj2 (in_own_class y (x :: l1))). rewrite Hst.
          apply (proj1 (in_own_class y (y :: l2))). now left. }
        destruct H as [H|H]; [congruence | exact H]. }
      assert (Hx2 : In x l2).
      { assert (H : In x (y :: l2)).
        { apply (proj2 (in_own_class x (y :: l2))). rewrite <- Hst.
          apply (proj1 (in_own_class x (x :: l1))). now left. }
        destruct H as [H|H]; [congruence | exact H]. }
      rewrite <- Hxy. apply tie_same.
      - now apply Forall_inv in HD1.
      - now apply Forall_inv in HD2.
      - now apply (sorted_head_least x l1).
      - now apply (sorted_head_least y l2). }
    assert (y = x) as ->.
    { specialize (Hst x). simpl in Hst. rewrite same_refl, Hxy in Hst. congruence. }
    f_equal. apply IH.
    + now apply Forall_inv_tail in HD1.
    + now apply Forall_inv_tail in HD2.
    + now apply Sorted_inv in Hs1.
    + now apply Sorted_inv in Hs2.
    + intros z. specialize (Hst z). simpl in Hst.
      destruct (same z x); congruence.
Qed.

End Unique.

(** ** Roster query: sort *)

Lemma unit_rank_involutive (b : ascii) : Js.unit_rank (Js.unit_rank b) = b.
Proof.
  destruct b as [[] [] [] [] [] [] [] []]; reflexivity.
Qed.

Lemma code_unit_key_inj (a b : string) :
  Js.code_unit_key a = Js.code_unit_key b -> a = b.
Proof.
  revert b. induction a as [|x a IH]; intros [|y b]; simpl; try discriminate;
    trivial.
  intros H. injection H as Hxy Hab. f_equal; [|now apply IH].
  rewrite <- (unit_rank_involutive x), Hxy. apply unit_rank_involutive.
Qed.

Lemma string_ltb_irrefl (a : string) : String.ltb a a = false.
Proof.
  unfold String.ltb. pose proof (String.compare_antisym a a) as H.
  destruct (String.compare a a); simpl in H; try discriminate; reflexivity.
Qed.

Lemma string_ltb_asym (a b : string) :
  String.ltb a b = true -> String.ltb b a = false.
Proof.
  unfold String.ltb. rewrite (String.compare_antisym a b).
  destruct (String.compare b a); simpl; congruence.
Qed.

Lemma num_lt_irrefl (n : Js.number) : Js.num_lt n n = false.
Proof. destruct n; simpl; [reflexivity | apply Z.ltb_irrefl]. Qed.

Lemma num_lt_asym (n m : Js.number) :
  Js.num_lt n m = true -> Js.num_lt m n = false.
Proof.
  destruct n, m; simpl; try discriminate.
  intros H. apply Z.ltb_lt in H. apply Z.ltb_ge. lia.
Qed.

Lemma number_eqb_eq (x y : Js.number) : number_eqb x y = true -> x = y.
Proof.
  destruct x, y; simpl; try discriminate; [reflexivity|].
  intros H. apply Z.eqb_eq in H. congruence.
Qed.

Lemma value_eqb_eq (x y : Js.value) : value_eqb x y = true -> x = y.
Proof.
  destruct x, y; simpl; try discriminate; trivial.
  - intros H. apply Bool.eqb_prop in H. congruence.
  - intros H. apply number_eqb_eq in H. congruence.
  - intros H. apply String.eqb_eq in H. congruence.
  - destruct (list_eq_dec string_dec l l0); [congruence | discriminate].
Qed.

Section Comparator.

Variable StringToNumber : string -> Js.number.

Local Abbreviation lt := (Js.lt StringToNumber).
Local Abbreviation cmp := (comparator StringToNumber).

Lemma js_lt_asym (x y : Js.value) : lt x y = true -> lt y x = false.
Proof.
  unfold Js.lt.
  destruct (Js.ToPrimitive x); destruct (Js.ToPrimitive y);
    try apply num_lt_asym; apply string_ltb_asym.
Qed.

(** Two values with the same primitive are neither below nor above each
    other. *)
Lemma js_lt_same_primitive (x y : Js.value) :
  Js.ToPrimitive x = Js.ToPrimitive y -> lt x y = false.
Proof.
  unfold Js.lt. intros ->.
  destruct (Js.ToPrimitive y); try apply num_lt_irrefl; apply string_ltb_irrefl.
Qed.

(** The comparator answers [b], [a] with the opposite of its answer
    to [a], [b], whatever the keys are. *)
Lemma comparator_antisym (f : string) (o : Z) (a b : Character.t) :
  cmp f o b a = (- cmp f o a b)%Z.
Proof.
  unfold comparator, Js.gt.
  destruct (lt (sort_value f a) (sort_value f b)) eqn:Hab.
  - rewrite (js_lt_asym _ _ Hab). lia.
  - destruct (lt (sort_value f b) (sort_value f a)); lia.
Qed.

Lemma comparator_same_key (f : string) (o : Z) (a b : Character.t) :
  Js.ToPrimitive (sort_value f a) = Js.ToPrimitive (sort_value f b) ->
  cmp f o a b = 0%Z.
Proof.
  intros H. unfold comparator, Js.gt.
  rewrite (js_lt_same_primitive _ _ H), (js_lt_same_primitive _ _ (eq_sym H)).
  reflexivity.
Qed.

(** *** The model against any conforming sort

    On keys of one kind and without NaN the comparator is a consistent
    comparator, and the result of [sort_step] is the only arrangement
    that is sorted and stable. *)

Lemma js_lt_trans (k : kind) (x y z : Js.value) :
  has_kind k (Js.ToPrimitive x) -> has_kind k (Js.ToPrimitive y) ->
  has_kind k (Js.ToPrimitive z) ->
  lt x y = true -> lt y z = true -> lt x z = true.
Proof.
  unfold Js.lt.
  destruct k, (Js.ToPrimitive x) as [|a|[|a]|a|la]; try contradiction;
    destruct (Js.ToPrimitive y) as [|b|[|b]|b|lb]; try contradiction;
    destruct (Js.ToPrimitive z) as [|c|[|c]|c|lc]; try contradiction;
    intros _ _ _; simpl; try discriminate.
  - destruct a, b, c; vm_compute; congruence.
  - rewrite !Z.ltb_lt. lia.
  - unfold String.ltb.
    generalize (Js.code_unit_key a), (Js.code_unit_key b), (Js.code_unit_key c).
    clear a b c. intros a b c.
    destruct (String.compare a b) eqn:Hab; try discriminate.
    destruct (String.compare b c) eqn:Hbc; try discriminate.
    intros _ _.
    apply String_as_OT.cmp_lt in Hab, Hbc.
    pose proof (String_as_OT.lt_trans _ _ _ Hab Hbc) as Hac.
    apply String_as_OT.cmp_lt in Hac. unfold String_as_OT.cmp in Hac.
    now rewrite Hac.
Qed.

Lemma js_lt_trichotomy (k : kind) (x y : Js.value) :
  has_kind k (Js.ToPrimitive x) -> has_kind k (Js.ToPrimitive y) ->
  lt x y = false -> lt y x = false ->
  Js.ToPrimitive x = Js.ToPrimitive y.
Proof.
  unfold Js.lt.
  destruct k, (Js.ToPrimitive x) as [|a|[|a]|a|la]; try contradiction;
    destruct (Js.ToPrimitive y) as [|b|[|b]|b|lb]; try contradiction;
    intros _ _; simpl; trivial.
  - destruct a, b; vm_compute; congruence.
  - rewrite !Z.ltb_ge. intros H1 H2. do 2 f_equal. lia.
  - unfold String.ltb.
    rewrite (String.compare_antisym (Js.code_unit_key b) (Js.code_unit_key a)).
    destruct (String.compare (Js.code_unit_key a) (Js.code_unit_key b)) eqn:Hab;
      simpl; try discriminate.
    intros _ _. apply String.compare_eq_iff, code_unit_key_inj in Hab.
    congruence.
Qed.

Lemma comparator_in_order (f : string) (o : Z) (a b : Character.t) :
  ((0 < o)%Z ->
   ((cmp f o a b <= 0)%Z <-> lt (sort_value f b) (sort_value f a) = false)) /\
  ((o < 0)%Z ->
   ((cmp f o a b <= 0)%Z <-> lt (sort_value f a) (sort_value f b) = false)).
Proof.
  unfold comparator, Js.gt.
  destruct (lt (sort_value f a) (sort_value f b)) eqn:Hab.
  - rewrite (js_lt_asym _ _ Hab). split; intros Ho; split; trivial; lia.
  - destruct (lt (sort_value f b) (sort_value f a));
      split; intros Ho; split; trivial; lia || discriminate.
Qed.

Lemma not_lt_trans (k : kind) (x y z : Js.value) :
  has_kind k (Js.ToPrimitive x) -> has_kind k (Js.ToPrimitive y) ->
  has_kind k (Js.ToPrimitive z) ->
  lt y x = false -> lt z y = false -> lt z x = false.
Proof.
  intros Hx Hy Hz Hyx Hzy.
  destruct (lt z x) eqn:Hzx; [|reflexivity].
  destruct (lt x y) eqn:Hxy.
  - rewrite (js_lt_trans k z x y Hz Hx Hy Hzx Hxy) in Hzy. discriminate.
  - pose proof (js_lt_trichotomy k x y Hx Hy Hxy Hyx) as He.
    unfold Js.lt in Hzx, Hzy. rewrite He in Hzx. congruence.
Qed.

Lemma comparator_trans (f : string) (o : Z) (k : kind) (a b c : Character.t) :
  o <> 0%Z ->
  key_of_kind f k a -> key_of_kind f k b -> key_of_kind f k c ->
  (cmp f o a b <= 0)%Z -> (cmp f o b c <= 0)%Z -> (cmp f o a c <= 0)%Z.
Proof.
  unfold key_of_kind. intros Ho Ha Hb Hc.
  destruct (Z.lt_total 0 o) as [Hpos | [Hz | Hneg]]; [| congruence |].
  - rewrite (proj1 (comparator_in_order f o a b) Hpos),
      (proj1 (comparator_in_order f o b c) Hpos),
      (proj1 (comparator_in_order f o a c) Hpos).
    intros Hab Hbc. exact (not_lt_trans k _ _ _ Ha Hb Hc Hab Hbc).
  - rewrite (proj2 (comparator_in_order f o a b) Hneg),
      (proj2 (comparator_in_order f o b c) Hneg),
      (proj2 (comparator_in_order f o a c) Hneg).
    intros Hab Hbc. exact (not_lt_trans k _ _ _ Hc Hb Ha Hbc Hab).
Qed.

Lemma value_eqb_refl (v : Js.value) : value_eqb v v = true.
Proof.
  destruct v as [|b|[|z]|s|l]; simpl; trivial.
  - now destruct b.
  - apply Z.eqb_refl.
  - apply String.eqb_refl.
  - destruct (list_eq_dec string_dec l l); congruence.
Qed.

Lemma comparator_tie_same (f : string) (o : Z) (k : kind) (a b : Character.t) :
  o <> 0%Z ->
  key_of_kind f k a -> key_of_kind f k b ->
  (cmp f o a b <= 0)%Z -> (cmp f o b a <= 0)%Z -> same_key f a b = true.
Proof.
  unfold key_of_kind, same_key. intros Ho Ha Hb.
  assert (Hgoal : lt (sort_value f a) (sort_value f b) = false ->
                  lt (sort_value f b) (sort_value f a) = false ->
                  value_eqb (Js.ToPrimitive (sort_value f a))
                            (Js.ToPrimitive (sort_value f b)) = true).
  { intros H1 H2. rewrite (js_lt_trichotomy k _ _ Ha Hb H1 H2).
    apply value_eqb_refl. }
  destruct (Z.lt_total 0 o) as [Hpos | [Hz | Hneg]]; [| congruence |].
  - rewrite (proj1 (comparator_in_order f o a b) Hpos),
      (proj1 (comparator_in_order f o b a) Hpos). auto.
  - rewrite (proj2 (comparator_in_order f o a b) Hneg),
      (proj2 (comparator_in_order f o b a) Hneg). auto.
Qed.

(** On keys of one kind and without NaN the records of a class, here
    the records with a key [v] or the records with the key of [x], keep
    their order. *)
Lemma sort_step_stable
      (f : string) (o : Z) (k : kind) (q : Character.t -> bool)
      (l : list Character.t) :
  o <> 0%Z ->
  Forall (key_of_kind f k) l ->
  (forall a b, q a = true -> q b = true ->
               Js.ToPrimitive (sort_value f a) = Js.ToPrimitive (sort_value f b)) ->
  filter q (sort_step StringToNumber f o l) = filter q l.
Proof.
  intros Ho HD Hq. unfold sort_step.
  apply (sort_stable (cmp f o) (comparator_antisym f o) (key_of_kind f k) q);
    trivial.
  - intros a b c. now apply comparator_trans.
  - intros a b Ha Hb. rewrite comparator_same_key; [lia | now apply Hq].
Qed.

(** Whatever arrangement a sort returns, if it is sorted by the field
    and direction and stable, it is the arrangement of [sort_step]. *)
Lemma sort_step_unique
      (f : string) (o : Z) (k : kind) (l l' : list Character.t) :
  o <> 0%Z ->
  Forall (key_of_kind f k) l ->
  sorted_by (cmp f o) l' ->
  (forall x, filter (same_key f x) l' = filter (same_key f x) l) ->
  l' = sort_step StringToNumber f o l.
Proof.
  intros Ho HD Hs Hst. unfold sort_step, sorted_by in *.
  assert (Hclass : forall x l0, In x l0 <-> In x (filter (same_key f x) l0)).
  { intros x l0. rewrite filter_In. unfold same_key.
    rewrite value_eqb_refl. tauto. }
  apply (stable_sorted_unique (cmp f o) (same_key f) (key_of_kind f k)).
  - intros a b c. now apply comparator_trans.
  - intros a. apply value_eqb_refl.
  - intros a b. now apply comparator_tie_same.
  - rewrite Forall_forall in *. intros x Hx. apply HD.
    apply (proj2 (Hclass x l)). rewrite <- Hst. now apply (proj1 (Hclass x l')).
  - rewrite Forall_forall in *. intros x Hx. apply HD.
    eapply Permutation_in; [apply sort_permutation | exact Hx].
  - exact Hs.
  - apply sort_sorted, comparator_antisym.
  - intros x. rewrite Hst. symmetry.
    apply (sort_step_stable f o k); trivial.
    intros a b Ha Hb. unfold same_key in Ha, Hb. apply value_eqb_eq in Ha, Hb.
    congruence.
Qed.


End Comparator.

(** The listing sorted by name: every sorted and stable arrangement of
    Beta, Alpha is Alpha, Beta. *)
Example sort_step_unique_names (l' : list Character.t) :
  sorted_by (comparator no_number "name" 1) l' ->
  (forall x, filter (same_key "name" x) l'
             = filter (same_key "name" x) [char_beta; char_alpha]) ->
  l' = [char_alpha; char_beta].
Proof.
  intros Hs Hst.
  rewrite (sort_step_unique no_number "name" 1 KString [char_beta; char_alpha] l');
    try assumption; [reflexivity | lia | repeat constructor].
Qed.

(** Sorting by "unit" looks at the name of the embedded unit. *)
Example sort_by_unit_name :
  sort_step no_number "unit" 1 [char_alpha; char_beta] = [char_beta; char_alpha] /\
  sort_value "unit" char_alpha = Js.VString "Red".
Proof. split; reflexivity. Qed.



(** The listing of [roster_nan] by age: the record without a number
    stays where the search for its place leaves it. *)
Example sort_with_nan :
  map Character.id (sort_step no_number "age" 1 roster_nan)
  = ["k6"; "k1"; "k2"; "k7"; "k3"; "k4"; "k5"] /\
  map Character.id
      (sort_step no_number "age" 1
         [char_aged "k1" (Js.Num 2); char_aged "k2" (Js.Num 1);
          char_aged "k3" Js.NaN; char_aged "k4" (Js.Num 0)])
  = ["k4"; "k2"; "k1"; "k3"].
Proof. split; reflexivity. Qed.

(** ** Roster query: the scenario *)

(** C1 as the specification words it does not hold: for the collection
    of Alpha and Beta the listing with search "a", sort "name" and order
    "asc" is not the one-element sequence of Alpha. *)
Lemma scenario_alpha_only_refuted :
  ~ (forall StringToNumber : string -> Js.number,
        response (get_characters StringToNumber request_scenario db_scenario)
        = Render 200 session_user (view_index [char_alpha] "a" "name" 1)).
Proof.
  intros H. specialize (H no_number). vm_compute in H. discriminate.
Qed.

(** C1, amended.  For a collection of exactly two characters, one named
    "Alpha" and one named "Beta", in either order, the listing with
    search "a", sort "name" and order "asc" of an authenticated request
    shows both, Alpha before Beta: both names contain the letter. *)
Theorem scenario_lists_alpha_then_beta {U : Js.Unicode}
        (StringToNumber : string -> Js.number) (B : Type)
        (a b : Character.t) (db : Db) (s : Session) (pid : string) (form : B) :
  Character.name a = "Alpha"%string ->
  Character.name b = "Beta"%string ->
  characters db = [a; b] \/ characters db = [b; a] ->
  authenticated s ->
  get_characters StringToNumber (mkRequest s pid query_scenario form) db
  = mkEffect db s (Render 200 s (view_index [a; b] "a" "name" 1)).
Proof.
  intros Ha Hb Hdb [u ->].
  unfold get_characters, get_characters_handler, route, requireLogin; simpl.
  unfold filter_step, sort_step, Js.sort, comparator, sort_value, Character.get, Js.gt, Js.lt.
  destruct Hdb as [-> | ->]; simpl; rewrite Ha, Hb; simpl;
    rewrite ?Ha, ?Hb; reflexivity.
Qed.

Lemma scenario_lists_alpha_then_beta_witness :
  get_characters no_number request_scenario db_scenario
  = mkEffect db_scenario session_user
             (Render 200 session_user (view_index [char_alpha; char_beta] "a" "name" 1)).
Proof.
  apply (scenario_lists_alpha_then_beta no_number Datatypes.unit
           char_alpha char_beta db_scenario session_user "" tt);
    [reflexivity | reflexivity | left; reflexivity |].
  now exists (SessionUser.mk (Some "65e000000000000000000002") "user" USER).
Defined.

(* ================================================================= *)
(** * Further properties of the routes *)

(** ** The guards in front of the routes *)

Lemma route_requireLogin_anonymous {B : Type} (ms : list Middleware)
      (h : Request B -> Db -> Effect) (req : Request B) (db : Db) :
  session req = None ->
  route (requireLogin :: ms) h req db = mkEffect db None (Redirect "/login").
Proof. intros H. simpl. now rewrite H. Qed.

Lemma route_page_requireLogin_anonymous {B : Type} (ms : list Middleware)
      (h : Request B -> Db -> PageEffect) (req : Request B) (db : Db) :
  session req = None ->
  route_page (requireLogin :: ms) h req db
  = mkPageEffect db None (Plain (Redirect "/login")).
Proof. intros H. simpl. now rewrite H. Qed.

Lemma route_page_admin_cases {B : Type} (h : Request B -> Db -> PageEffect)
      (req : Request B) (db : Db) :
  route_page [requireLogin; requireAdmin] h req db =
    match session req with
    | None => mkPageEffect db None (Plain (Redirect "/login"))
    | Some u =>
        if Role_eqb (SessionUser.role u) ADMIN then h req db
        else mkPageEffect db (Some u)
               (Plain (Render 403 (Some u)
                              (view_error "Geen toegang. Alleen voor admins.")))
    end.
Proof.
  simpl. destruct (session req) as [u|]; simpl; [|reflexivity].
  destruct (Role_eqb (SessionUser.role u) ADMIN); reflexivity.
Qed.

Lemma admin_session_role (u : SessionUser.t) :
  admin_session (Some u) <-> Role_eqb (SessionUser.role u) ADMIN = true.
Proof.
  unfold admin_session. split.
  - intros (u' & [= <-] & ->). reflexivity.
  - intros H. exists u. split; [reflexivity|].
    destruct (SessionUser.role u); [reflexivity | discriminate].
Qed.

(** X1. A request without a session user is redirected to /login by
    every guarded route, the admin routes included; nothing of the
    database is shown or changed. *)
Theorem anonymous_is_redirected {U : Js.Unicode}
        (StringToNumber parseInt : string -> Js.number)
        (B : Type) (req : Request B) (edit : Request EditForm) (db : Db) :
  session req = None -> session edit = None ->
  get_characters StringToNumber req db = mkEffect db None (Redirect "/login") /\
  get_unit req db = mkEffect db None (Redirect "/login") /\
  post_edit parseInt edit db = mkEffect db None (Redirect "/login") /\
  get_character req db = mkPageEffect db None (Plain (Redirect "/login")) /\
  get_edit req db = mkPageEffect db None (Plain (Redirect "/login")) /\
  get_units req db = mkPageEffect db None (Plain (Redirect "/login")) /\
  get_users req db = mkPageEffect db None (Plain (Redirect "/login")).
Proof.
  intros Hreq Hedit.
  unfold get_characters, get_unit, post_edit, get_character, get_edit,
    get_units, get_users.
  repeat split;
    first [ now apply route_requireLogin_anonymous
          | now apply route_page_requireLogin_anonymous ].
Qed.

Lemma anonymous_is_redirected_witness :
  get_users (mkRequest None "" no_query tt) db_scenario
  = mkPageEffect db_scenario None (Plain (Redirect "/login")).
Proof.
  apply (anonymous_is_redirected no_number no_number Datatypes.unit
           (mkRequest None "" no_query tt)
           (mkRequest None "c1" no_query (mkEditForm "X" "1" "" None))
           db_scenario); reflexivity.
Defined.

(** X2. The accounts page and the edit form are rendered for sessions
    of role ADMIN only: any other request gets the redirect to /login
    or the 403 view, and a rendered accounts page lists the stored
    accounts as they are. *)
Theorem admin_pages_for_admins_only (B : Type) (req : Request B) (db : Db) :
  ((exists st u l, reply (get_users req db) = RenderPage st u (page_users l))
   <-> admin_session (session req)) /\
  (forall st u l, reply (get_users req db) = RenderPage st u (page_users l) ->
                  l = users db) /\
  (forall st u p, reply (get_edit req db) = RenderPage st u p ->
                  admin_session (session req)) /\
  (~ admin_session (session req) ->
   authenticated (session req) ->
   let denied := Plain (Render 403 (session req)
                               (view_error "Geen toegang. Alleen voor admins.")) in
   reply (get_users req db) = denied /\ reply (get_edit req db) = denied) /\
  page_db_after (get_users req db) = db /\ page_db_after (get_edit req db) = db.
Proof.
  unfold get_users, get_edit. rewrite !route_page_admin_cases.
  destruct (session req) as [u|] eqn:Hs.
  - pose proof (admin_session_role u) as Hadm.
    destruct (Role_eqb (SessionUser.role u) ADMIN) eqn:Hr;
      unfold get_users_handler, get_edit_handler; rewrite ?Hs; simpl.
    + assert (Ha : admin_session (Some u)) by now apply Hadm.
      split; [|split; [|split; [|split; [|split]]]].
      * split; [intros _; exact Ha | intros _; eauto].
      * intros st s l [= _ _ <-]. reflexivity.
      * intros st s p _. exact Ha.
      * intros Hna. contradiction.
      * reflexivity.
      * destruct (findOne _ _); reflexivity.
    + assert (Hna : ~ admin_session (Some u)).
      { intros Ha. apply Hadm in Ha. discriminate. }
      split; [|split; [|split; [|split; [|split]]]].
      * split; [intros (st & s & l & H); discriminate | intros; contradiction].
      * intros st s l H. discriminate.
      * intros st s p H. discriminate.
      * intros _ _. split; reflexivity.
      * reflexivity.
      * reflexivity.
  - simpl. split; [|split; [|split; [|split; [|split]]]].
    + split; [intros (st & s & l & H); discriminate
             | intros (u & H & _); discriminate].
    + intros st s l H. discriminate.
    + intros st s p H. discriminate.
    + intros _ [u H]. discriminate.
    + reflexivity.
    + reflexivity.
Qed.

Lemma admin_pages_for_admins_only_witness :
  reply (get_users (mkRequest session_user "" no_query tt) db_scenario)
  = Plain (Render 403 session_user (view_error "Geen toegang. Alleen voor admins.")) /\
  reply (get_users (mkRequest session_admin "" no_query tt) db_scenario)
  = RenderPage 200 session_admin (page_users [account_admin; account_user]).
Proof.
  pose proof (admin_pages_for_admins_only Datatypes.unit
                (mkRequest session_user "" no_query tt) db_scenario)
    as (_ & _ & _ & Hdenied & _).
  split; [|reflexivity].
  apply Hdenied.
  - intros (u & [= <-] & Hr). discriminate.
  - now exists (SessionUser.mk (Some "65e000000000000000000002") "user" USER).
Defined.

(** ** Sessions: login and logout *)

Section SessionProperties.

Context {U : Js.Unicode}.

Variable compare : string -> string -> bool.
Variable StringToNumber : string -> Js.number.

(** X3. A login with the user name of a stored account and a password
    that [bcrypt.compare] accepts stores that account's identity in the
    session and leaves the database alone; with that session the
    listing is rendered with status 200, and the admin guard lets the
    session pass exactly when the account has role ADMIN. *)
Theorem login_opens_session
        (db : Db) (s : Session) (pid : string) (q : Query)
        (cred : Credentials) (account : User.t) :
  findOne (by_username (username cred)) (users db) = Some account ->
  compare (password cred) (User.password account) = true ->
  let e := post_login compare (mkRequest s pid q cred) db in
  response e = Redirect "/characters" /\
  db_after e = db /\
  session_after e = Some (identity_of account) /\
  SessionUser.username (identity_of account) = username cred /\
  (forall (B : Type) (req : Request B),
      session req = session_after e ->
      exists chars search sortField sortOrder,
        response (get_characters StringToNumber req db)
        = Render 200 (session req) (view_index chars search sortField sortOrder)) /\
  (requireAdmin (session_after e) = Next <-> User.role account = ADMIN).
Proof.
  intros Hfind Hcmp. unfold post_login; simpl. rewrite Hfind, Hcmp. simpl.
  split; [reflexivity|]. split; [reflexivity|]. split; [reflexivity|].
  split; [|split].
  - apply findOne_some in Hfind as (_ & _ & _ & Hq & _).
    unfold by_username in Hq. now apply String.eqb_eq in Hq.
  - intros B req Hs. unfold get_characters, get_characters_handler. simpl.
    rewrite Hs. simpl. eauto.
  - destruct (User.role account); simpl; split; congruence.
Qed.

(** X4. Whatever is posted to /login, the database stays as it is, and
    the session afterwards is the one before or the identity of a
    stored account that carries the posted user name and whose hash
    [bcrypt.compare] accepts for the posted password. *)
Theorem login_sound (req : Request Credentials) (db : Db) :
  let e := post_login compare req db in
  db_after e = db /\
  ((session_after e = session req /\
    response e = Render 200 (session req)
                   (view_login (Some "Gebruikersnaam of wachtwoord onjuist."))) \/
   (exists account,
       In account (users db) /\
       User.username account = username (body req) /\
       compare (password (body req)) (User.password account) = true /\
       session_after e = Some (identity_of account) /\
       response e = Redirect "/characters")).
Proof.
  unfold post_login.
  destruct (findOne (by_username (username (body req))) (users db)) as [u|] eqn:Hfind.
  - destruct (compare (password (body req)) (User.password u)) eqn:Hcmp; simpl.
    + split; [reflexivity|]. right. exists u.
      apply findOne_some in Hfind as (before & after & Hcol & Hq & _).
      unfold by_username in Hq. apply String.eqb_eq in Hq.
      repeat split; trivial.
      rewrite Hcol. apply in_or_app. right. now left.
    + split; [reflexivity|]. now left.
  - simpl. split; [reflexivity|]. now left.
Qed.

(** X5. A logout empties the session whatever it held and keeps the
    database; the request that follows with that session is sent to
    /login by the listing and by the accounts page. *)
Theorem logout_closes_session
        (B : Type) (req : Request B) (db : Db) (next : Request B) :
  let e := post_logout req db in
  session_after e = None /\ db_after e = db /\
  response e = Redirect "/login" /\
  (session next = session_after e ->
   get_characters StringToNumber next db = mkEffect db None (Redirect "/login") /\
   get_users next db = mkPageEffect db None (Plain (Redirect "/login"))).
Proof.
  unfold post_logout; simpl. repeat split.
  - unfold get_characters. now apply route_requireLogin_anonymous.
  - unfold get_users. now apply route_page_requireLogin_anonymous.
Qed.

End SessionProperties.

Lemma login_opens_session_witness :
  session_after
    (post_login toy_compare
       (mkRequest None "" no_query (mkCredentials "admin" "admin")) db_scenario)
  = session_admin /\
  requireAdmin session_admin = Next.
Proof.
  pose proof (login_opens_session toy_compare no_number db_scenario None "" no_query
                (mkCredentials "admin" "admin") account_admin eq_refl eq_refl)
    as (_ & _ & Hs & _ & _ & Hadmin).
  split; [exact Hs|].
  exact (proj2 Hadmin eq_refl).
Defined.

Lemma logout_closes_session_witness :
  get_characters no_number (mkRequest None "" no_query tt) db_scenario
  = mkEffect db_scenario None (Redirect "/login").
Proof.
  pose proof (logout_closes_session no_number Datatypes.unit
                (mkRequest session_admin "" no_query tt) db_scenario
                (mkRequest None "" no_query tt)) as (_ & _ & _ & H).
  exact (proj1 (H eq_refl)).
Defined.

(** ** Registration *)

Lemma findOne_none_username (name : string) (l : list User.t) :
  findOne (by_username name) l = None <-> ~ In name (map User.username l).
Proof.
  rewrite findOne_none, in_map_iff. unfold by_username. split.
  - intros H (u & Hu & Hin). specialize (H u Hin).
    apply String.eqb_neq in H. contradiction.
  - intros H u Hin. apply String.eqb_neq. intros Hu. apply H. now exists u.
Qed.

Lemma NoDup_snoc {A : Type} (l : list A) (x : A) :
  NoDup l -> ~ In x l -> NoDup (l ++ [x]).
Proof.
  intros Hl Hx. apply NoDup_app. repeat split; trivial.
  - repeat constructor. intros [].
  - intros a Ha [<- | []]. contradiction.
Qed.

Lemma count_username_one (n : string) (u : User.t) :
  count_username n [u] = if (User.username u =? n)%string then 1%nat else 0%nat.
Proof.
  unfold count_username, by_username. simpl.
  destruct (User.username u =? n)%string; reflexivity.
Qed.

Section RegistrationProperties.

Variable hash : string -> nat -> string -> string.
Variable compare : string -> string -> bool.

(** X6. A registration is refused with "Gebruikersnaam bestaat al."
    exactly when some account carries the posted user name, and then
    nothing is stored.  No user name is ever carried by more accounts
    than before, or by more than one when it was free; accounts with
    pairwise different user names stay so. *)
Theorem register_keeps_usernames_unique
        (env : Entropy) (req : Request Credentials) (db : Db) :
  let e := post_register hash env req db in
  let taken := Render 200 (session req)
                      (view_register (Some "Gebruikersnaam bestaat al.")) in
  ((exists a, In a (users db) /\ User.username a = username (body req))
   <-> response e = taken) /\
  (response e = taken -> db_after e = db) /\
  (forall n, (count_username n (users (db_after e))
              <= Nat.max 1 (count_username n (users db)))%nat) /\
  (unique_usernames db -> unique_usernames (db_after e)) /\
  session_after e = session req.
Proof.
  unfold post_register.
  destruct (findOne (by_username (username (body req))) (users db)) as [u|] eqn:Hfind;
    cbn [db_after session_after response users set_users].
  - split; [|split; [|split; [|split]]]; trivial.
    + split; [reflexivity|]. intros _. exists u.
      apply findOne_some in Hfind as (before & after & Hcol & Hq & _).
      unfold by_username in Hq. apply String.eqb_eq in Hq. split; trivial.
      rewrite Hcol. apply in_or_app. right. now left.
    + intros n. apply Nat.le_max_r.
  - split; [|split; [|split; [|split]]]; trivial.
    + split; [|discriminate]. intros (a & Hin & Ha). exfalso.
      rewrite findOne_none in Hfind. specialize (Hfind a Hin).
      unfold by_username in Hfind. apply String.eqb_neq in Hfind. contradiction.
    + discriminate.
    + intros n. unfold insertOne. rewrite count_username_app.
      pose proof (Nat.le_max_l 1 (count_username n (users db))).
      pose proof (Nat.le_max_r 1 (count_username n (users db))).
      rewrite count_username_one. cbn [User.with_id User.username].
      destruct (String.eqb_spec (username (body req)) n) as [<-|Hn].
      * rewrite (count_username_none _ _ Hfind). lia.
      * lia.
    + unfold unique_usernames, insertOne. simpl. intros Hu.
      rewrite map_app. simpl. apply NoDup_snoc; [exact Hu|].
      now apply findOne_none_username.
Qed.

(** X7. After the registration of a free user name, a login with the
    same name and password opens a session for that name with role
    USER, provided [bcrypt.compare] accepts the password against the
    hash just stored; the admin guard answers that session with 403;
    and a second registration of the name is refused and stores
    nothing. *)
Theorem register_then_login
        (env env' : Entropy) (req : Request Credentials) (db : Db) :
  findOne (by_username (username (body req))) (users db) = None ->
  compare (password (body req)) (hash (password (body req)) 10 (salt env)) = true ->
  let r := post_register hash env req db in
  let db' := db_after r in
  let e := post_login compare req db' in
  response r = Redirect "/login" /\
  response e = Redirect "/characters" /\
  session_after e
  = Some (SessionUser.mk (Some (oid env)) (username (body req)) USER) /\
  requireAdmin (session_after e)
  = Answer (Render 403 (session_after e)
                   (view_error "Geen toegang. Alleen voor admins.")) /\
  post_register hash env' req db'
  = mkEffect db' (session req)
      (Render 200 (session req) (view_register (Some "Gebruikersnaam bestaat al."))).
Proof.
  intros Hfree Hcmp. unfold post_register, post_login. rewrite Hfree. simpl.
  unfold insertOne. rewrite !findOne_app, Hfree. simpl.
  unfold by_username. simpl. rewrite String.eqb_refl. simpl. rewrite Hcmp.
  repeat split.
Qed.

End RegistrationProperties.

Lemma register_keeps_usernames_unique_witness :
  unique_usernames
    (db_after (post_register toy_hash (mkEntropy "$2a$10$" "65e000000000000000000003")
                 (mkRequest None "" no_query (mkCredentials "root" "pw"))
                 db_scenario)).
Proof.
  pose proof (register_keeps_usernames_unique toy_hash
                (mkEntropy "$2a$10$" "65e000000000000000000003")
                (mkRequest None "" no_query (mkCredentials "root" "pw"))
                db_scenario) as (_ & _ & _ & H & _).
  apply H. unfold unique_usernames. simpl.
  repeat constructor; simpl; intuition discriminate.
Defined.

Lemma register_then_login_witness :
  session_after
    (post_login toy_compare (mkRequest None "" no_query (mkCredentials "root" "pw"))
       (db_after (post_register toy_hash
                    (mkEntropy "$2a$10$" "65e000000000000000000003")
                    (mkRequest None "" no_query (mkCredentials "root" "pw"))
                    db_scenario)))
  = Some (SessionUser.mk (Some "65e000000000000000000003") "root" USER).
Proof.
  pose proof (register_then_login toy_hash toy_compare
                (mkEntropy "$2a$10$" "65e000000000000000000003")
                (mkEntropy "$2a$10$" "65e000000000000000000004")
                (mkRequest None "" no_query (mkCredentials "root" "pw"))
                db_scenario eq_refl eq_refl) as (_ & _ & H & _).
  exact H.
Defined.

(** ** The seeder and the accounts *)

Lemma assign_ids_spec (fresh : nat -> ObjectId) (data : list Character.t) :
  forall i,
    Forall2 (fun c d =>
               same_but_oid c d /\ Character._id c <> None /\
               (forall o, Character._id d = Some o -> c = d))
            (assign_ids fresh i data) data.
Proof.
  induction data as [|d data IH]; intros i; simpl; constructor; [|apply IH].
  unfold same_but_oid.
  destruct (Character._id d) eqn:Hd; simpl.
  - repeat split; congruence.
  - repeat split; try discriminate.
Qed.

Lemma same_oid_eq (x y : option ObjectId) : same_oid x y = true -> x = y.
Proof.
  destruct x, y; simpl; try discriminate.
  intros H. apply String.eqb_eq in H. congruence.
Qed.

Lemma holds_oid_in (col : list Character.t) (d : Character.t) :
  Character._id d <> None ->
  holds_oid col d = false -> ~ In (Character._id d) (map Character._id col).
Proof.
  intros Hd Hno Hin. apply in_map_iff in Hin as (c & Hc & Hin).
  assert (H : holds_oid col d = true).
  { apply existsb_exists. exists c. split; [exact Hin|]. rewrite Hc.
    destruct (Character._id d); [apply String.eqb_refl | contradiction]. }
  congruence.
Qed.

(** What an ordered insert stores is what was stored and the first [n]
    documents of the batch; the insert is complete, or stops in front
    of a document whose [_id] is taken. *)
Lemma insert_ordered_prefix (docs col : list Character.t) :
  exists n, (n <= List.length docs)%nat /\
            fst (insert_ordered col docs) = col ++ firstn n docs /\
            (snd (insert_ordered col docs) = true -> n = List.length docs) /\
            (snd (insert_ordered col docs) = false ->
             exists d c, nth_error docs n = Some d /\
                         In c (col ++ firstn n docs) /\
                         same_oid (Character._id c) (Character._id d) = true).
Proof.
  revert col. induction docs as [|d docs IH]; intros col.
  - exists 0%nat. simpl. rewrite app_nil_r. repeat split; trivial. discriminate.
  - simpl. destruct (holds_oid col d) eqn:Hd.
    + exists 0%nat. simpl. rewrite app_nil_r.
      split; [lia|]. split; [reflexivity|]. split; [discriminate|].
      intros _. apply existsb_exists in Hd as (c & Hin & Hc). eauto.
    + destruct (IH (col ++ [d])) as (n & Hn & Hfst & Hall & Hstop).
      exists (S n). simpl. rewrite <- app_assoc in Hfst, Hstop. simpl in Hfst, Hstop.
      split; [lia|]. split; [exact Hfst|]. split; [|exact Hstop].
      intros H. now rewrite (Hall H).
Qed.

(** An ordered insert keeps the [_id]s pairwise different. *)
Lemma insert_ordered_unique (docs col : list Character.t) :
  Forall (fun c => Character._id c <> None) docs ->
  NoDup (map Character._id col) ->
  NoDup (map Character._id (fst (insert_ordered col docs))).
Proof.
  revert col. induction docs as [|d docs IH]; intros col Hids Hcol; [exact Hcol|].
  simpl. destruct (holds_oid col d) eqn:Hd; [exact Hcol|].
  apply IH; [now apply Forall_inv_tail in Hids|].
  rewrite map_app. simpl. apply NoDup_snoc; [exact Hcol|].
  apply holds_oid_in; [now apply Forall_inv in Hids | exact Hd].
Qed.

Section SeederAccounts.

Variable hash : string -> nat -> string -> string.
Variable compare : string -> string -> bool.

Local Abbreviation seed := (connectAndSeedDatabase hash).

(** X8. After a run of the seeder that reached the database the user
    names "admin" and "user" are taken: a registration of either is
    refused and stores nothing. *)
Theorem seeded_names_cannot_be_registered
        (env : SeedEnv) (db : Db) (e : Entropy) (req : Request Credentials) :
  connect_ok env = true ->
  username (body req) = "admin"%string \/ username (body req) = "user"%string ->
  post_register hash e req (seed env db)
  = mkEffect (seed env db) (session req)
      (Render 200 (session req) (view_register (Some "Gebruikersnaam bestaat al."))).
Proof.
  intros Hc Hname.
  destruct (seed_accounts_present hash env db Hc) as [Ha Hu].
  unfold post_register.
  destruct Hname as [-> | ->].
  - destruct (findOne (by_username "admin") (users (seed env db)));
      [reflexivity | discriminate].
  - destruct (findOne (by_username "user") (users (seed env db)));
      [reflexivity | discriminate].
Qed.

(** X9. On a database without an "admin" account, a run of the seeder
    that reached the database makes the login admin / admin123 open a
    session of role ADMIN that passes the admin guard, provided
    [bcrypt.compare] accepts the password against the hash the seeder
    stored.  An "admin" account that exists already is kept as the one
    a login finds, whatever its role and password. *)
Theorem seeded_admin_can_login
        (env : SeedEnv) (db : Db) (s : Session) (pid : string) (q : Query) :
  connect_ok env = true ->
  (findOne (by_username "admin") (users db) = None ->
   compare "admin123" (hash "admin123" 10 (salt (admin_entropy env))) = true ->
   let e := post_login compare
              (mkRequest s pid q (mkCredentials "admin" "admin123")) (seed env db) in
   session_after e
   = Some (SessionUser.mk (Some (oid (admin_entropy env))) "admin" ADMIN) /\
   requireAdmin (session_after e) = Next /\
   response e = Redirect "/characters") /\
  (forall a, findOne (by_username "admin") (users db) = Some a ->
             findOne (by_username "admin") (users (seed env db)) = Some a).
Proof.
  intros Hc. split.
  - intros Hnone Hcmp. unfold post_login. simpl.
    rewrite (seed_users hash env db Hc), Hnone. simpl.
    rewrite findOne_app, Hnone. simpl. rewrite Hcmp. simpl. repeat split.
  - intros a Ha. rewrite (seed_users hash env db Hc).
    now apply findOne_app_some.
Qed.

(** X10. The seeder keeps pairwise different user names pairwise
    different. *)
Theorem seed_keeps_usernames_unique (env : SeedEnv) (db : Db) :
  unique_usernames db -> unique_usernames (seed env db).
Proof.
  unfold unique_usernames. intros Hu.
  destruct (connect_ok env) eqn:Hc;
    [|now rewrite (seed_disconnected hash env db Hc)].
  rewrite (seed_users hash env db Hc).
  destruct (findOne (by_username "admin") (users db)) eqn:Ha;
    destruct (findOne (by_username "user") (users db)) eqn:Hb; simpl;
    rewrite ?app_nil_r; trivial.
  - rewrite map_app. simpl. apply NoDup_snoc; trivial.
    now apply findOne_none_username.
  - rewrite map_app. simpl. apply NoDup_snoc; trivial.
    now apply findOne_none_username.
  - change (users db ++ [?a; ?b]) with (users db ++ [a] ++ [b]).
    rewrite app_assoc, !map_app. simpl.
    apply NoDup_snoc; [apply NoDup_snoc; trivial;
                       now apply findOne_none_username|].
    intros Hin. apply in_app_or in Hin as [Hin | [Hin | []]]; [|discriminate].
    apply findOne_none_username in Hb. contradiction.
Qed.

(** X11. When the seeder reaches the database, finds no characters and
    fetches an array, it gives every fetched document without [_id] a
    fresh one and keeps every field but that as fetched.  The
    characters afterwards are the first [n] of these documents in
    their order, with pairwise different [_id]s: at least one when the
    array is not empty, all of them when their [_id]s are pairwise
    different, and otherwise the documents in front of the first one
    whose [_id] a document in front of it carries. *)
Theorem seed_imports_prefix
        (env : SeedEnv) (db : Db) (data : list Character.t) :
  connect_ok env = true ->
  characters db = [] ->
  fetched env = Some data ->
  let docs := assign_ids (fresh_ids env) 0 data in
  Forall2 (fun c d =>
             same_but_oid c d /\ Character._id c <> None /\
             (forall o, Character._id d = Some o -> c = d))
          docs data /\
  exists n,
    characters (seed env db) = firstn n docs /\
    (n <= List.length data)%nat /\
    (data <> [] -> (1 <= n)%nat) /\
    NoDup (map Character._id (characters (seed env db))) /\
    ((n < List.length data)%nat ->
     exists d c, nth_error docs n = Some d /\ In c (firstn n docs) /\
                 Character._id c = Character._id d) /\
    (NoDup (map Character._id docs) ->
     n = List.length data /\ characters (seed env db) = docs).
Proof.
  intros Hc Hempty Hdata docs.
  pose proof (assign_ids_spec (fresh_ids env) data 0%nat) as Hdocs.
  fold docs in Hdocs. split; [exact Hdocs|].
  assert (Hlen : List.length docs = List.length data)
    by now apply Forall2_length in Hdocs.
  assert (Hids : Forall (fun c => Character._id c <> None) docs).
  { clear - Hdocs. induction Hdocs as [|c d l l' [_ [H _]] _ IH]; constructor; trivial. }
  rewrite (seed_characters hash env db Hc), Hempty, Hdata. fold docs.
  destruct (insert_ordered_prefix docs []) as (n & Hn & Hfst & Hall & Hstop).
  simpl in Hfst, Hstop.
  assert (Hdup : (n < List.length data)%nat ->
                 exists d c, nth_error docs n = Some d /\ In c (firstn n docs) /\
                             Character._id c = Character._id d).
  { intros Hlt. destruct (snd (insert_ordered [] docs)) eqn:Hsnd.
    - specialize (Hall eq_refl). lia.
    - destruct (Hstop eq_refl) as (d & c & Hd & Hin & Hsame).
      exists d, c. repeat split; trivial. now apply same_oid_eq. }
  exists n. rewrite Hfst.
  split; [reflexivity|]. split; [lia|]. split; [|split; [|split]].
  - intros Hne. destruct n as [|n]; [|lia]. exfalso.
    destruct Hdup as (d & c & _ & Hin & _); [|exact Hin].
    destruct data; [contradiction | simpl; lia].
  - rewrite <- Hfst. apply insert_ordered_unique; [exact Hids | constructor].
  - exact Hdup.
  - intros Hnd.
    assert (Hfull : n = List.length data).
    { destruct (Nat.lt_ge_cases n (List.length data)) as [Hlt|Hge]; [|lia].
      exfalso. destruct (Hdup Hlt) as (d & c & Hd & Hin & Hsame).
      destruct (skipn_at _ _ _ Hd) as (tl & Htl).
      rewrite <- (firstn_skipn n docs), Htl, map_app in Hnd. simpl in Hnd.
      apply NoDup_remove_2 in Hnd. apply Hnd, in_or_app. left.
      rewrite <- Hsame. now apply in_map. }
    split; [exact Hfull|]. rewrite Hfull, <- Hlen. apply firstn_all.
Qed.

(** X12. A run that cannot connect changes nothing.  A run that
    connects but gets no array, or an empty one, leaves the characters
    as they were and still has both default accounts in place: the
    accounts are not taken back. *)
Theorem seed_partial_on_failure (env : SeedEnv) (db : Db) :
  (connect_ok env = false -> seed env db = db) /\
  (connect_ok env = true ->
   fetched env = None \/ fetched env = Some [] ->
   characters (seed env db) = characters db /\
   (1 <= count_username "admin" (users (seed env db)))%nat /\
   (1 <= count_username "user" (users (seed env db)))%nat).
Proof.
  split; [apply seed_disconnected|].
  intros Hc Hf. split.
  - rewrite (seed_characters hash env db Hc).
    destruct (characters db); [|reflexivity].
    destruct Hf as [-> | ->]; reflexivity.
  - destruct (seed_accounts_present hash env db Hc) as [Ha Hu].
    split.
    + destruct (findOne (by_username "admin") (users (seed env db))) eqn:H;
        [now apply count_username_some in H | discriminate].
    + destruct (findOne (by_username "user") (users (seed env db))) eqn:H;
        [now apply count_username_some in H | discriminate].
Qed.

End SeederAccounts.

Lemma seeded_names_cannot_be_registered_witness :
  users (db_after
           (post_register toy_hash (mkEntropy "$2a$10$" "65e000000000000000000009")
              (mkRequest None "" no_query (mkCredentials "admin" "mine"))
              (connectAndSeedDatabase toy_hash (seed_env None) db_empty)))
  = users (connectAndSeedDatabase toy_hash (seed_env None) db_empty).
Proof.
  rewrite (seeded_names_cannot_be_registered toy_hash (seed_env None) db_empty
             (mkEntropy "$2a$10$" "65e000000000000000000009")
             (mkRequest None "" no_query (mkCredentials "admin" "mine"))
             eq_refl (or_introl eq_refl)).
  reflexivity.
Defined.

Lemma seeded_admin_can_login_witness :
  session_after
    (post_login toy_compare
       (mkRequest None "" no_query (mkCredentials "admin" "admin123"))
       (connectAndSeedDatabase toy_hash (seed_env None) db_empty))
  = Some (SessionUser.mk (Some "65e000000000000000000001") "admin" ADMIN).
Proof.
  pose proof (seeded_admin_can_login toy_hash toy_compare (seed_env None) db_empty
                None "" no_query eq_refl) as (H & _).
  exact (proj1 (H eq_refl eq_refl)).
Defined.

Lemma seed_keeps_usernames_unique_witness :
  unique_usernames (connectAndSeedDatabase toy_hash (seed_env None) db_empty).
Proof.
  apply (seed_keeps_usernames_unique toy_hash (seed_env None) db_empty).
  constructor.
Defined.

Lemma seed_imports_prefix_witness :
  exists n,
    characters (connectAndSeedDatabase toy_hash
                  (seed_env (Some [char_alpha; char_gamma; char_alpha; char_beta]))
                  db_empty)
    = firstn n (assign_ids (fun _ => "65f000000000000000000000") 0
                           [char_alpha; char_gamma; char_alpha; char_beta]) /\
    (1 <= n)%nat.
Proof.
  destruct (seed_imports_prefix toy_hash
              (seed_env (Some [char_alpha; char_gamma; char_alpha; char_beta]))
              db_empty [char_alpha; char_gamma; char_alpha; char_beta]
              eq_refl eq_refl eq_refl)
    as (_ & n & Hn & _ & Hone & _).
  exists n. split; [exact Hn|]. apply Hone. discriminate.
Defined.

(** A batch that repeats an [_id]: the documents in front of the
    repetition are stored, the fetched [_id] kept and the missing one
    given, and nothing behind the repetition. *)
Example seed_stops_at_repeated_oid :
  characters (connectAndSeedDatabase toy_hash
                (seed_env (Some [char_alpha; char_gamma; char_alpha; char_beta]))
                db_empty)
  = [char_alpha; Character.with_id "65f000000000000000000000" char_gamma].
Proof. reflexivity. Qed.

Lemma seed_partial_on_failure_witness :
  characters (connectAndSeedDatabase toy_hash (seed_env None) db_empty) = [] /\
  (1 <= count_username "admin"
          (users (connectAndSeedDatabase toy_hash (seed_env None) db_empty)))%nat.
Proof.
  pose proof (seed_partial_on_failure toy_hash (seed_env None) db_empty) as (_ & H).
  destruct (H eq_refl (or_introl eq_refl)) as (Hc & Ha & _).
  split; [exact Hc | exact Ha].
Defined.

(** ** Edit, composed with the other routes *)

Lemma updateOne_map {A K : Type} (f : A -> K) (q : A -> bool) (upd : A -> A)
      (col : list A) :
  (forall d, f (upd d) = f d) ->
  map f (updateOne q upd col) = map f col.
Proof.
  intros Hf. induction col as [|d col IH]; simpl; [reflexivity|].
  destruct (q d); simpl; congruence.
Qed.

Lemma updateOne_idempotent {A : Type} (q : A -> bool) (upd : A -> A)
      (col : list A) :
  (forall d, q (upd d) = q d) ->
  (forall d, upd (upd d) = upd d) ->
  updateOne q upd (updateOne q upd col) = updateOne q upd col.
Proof.
  intros Hq Hupd. induction col as [|d col IH]; simpl; [reflexivity|].
  destruct (q d) eqn:Hd; simpl.
  - now rewrite Hq, Hd, Hupd.
  - now rewrite Hd, IH.
Qed.

Lemma findOne_updateOne {A : Type} (q : A -> bool) (upd : A -> A) (col : list A) :
  (forall d, q (upd d) = q d) ->
  findOne q (updateOne q upd col) = option_map upd (findOne q col).
Proof.
  intros Hq. unfold findOne. induction col as [|d col IH]; simpl; [reflexivity|].
  destruct (q d) eqn:Hd; simpl.
  - now rewrite Hq, Hd.
  - now rewrite Hd.
Qed.

Lemma uniqueUnits_of_units (l l' : list Character.t) :
  map Character.unit l = map Character.unit l' ->
  uniqueUnits l = uniqueUnits l'.
Proof.
  intros H. unfold uniqueUnits.
  assert (Hm : forall x, map (fun c => (Unit.id (Character.unit c), Character.unit c)) x
                         = map (fun u => (Unit.id u, u)) (map Character.unit x)).
  { intros x. now rewrite map_map. }
  now rewrite !Hm, H.
Qed.

Lemma route_admin_cases {B : Type} (h : Request B -> Db -> Effect)
      (req : Request B) (db : Db) :
  route [requireLogin; requireAdmin] h req db =
    match session req with
    | None => mkEffect db None (Redirect "/login")
    | Some u =>
        if Role_eqb (SessionUser.role u) ADMIN then h req db
        else mkEffect db (Some u)
               (Render 403 (Some u) (view_error "Geen toegang. Alleen voor admins."))
    end.
Proof.
  simpl. destruct (session req) as [u|]; simpl; [|reflexivity].
  destruct (Role_eqb (SessionUser.role u) ADMIN); reflexivity.
Qed.

Section EditComposition.

Variable parseInt : string -> Js.number.

Local Abbreviation edited req :=
  (Character.set (form_name (body req)) (parseInt (form_age (body req)))
                 (form_description (body req))
                 (strict_eq (form_isActive (body req)) "true")).

(** X13. Posting the same edit a second time changes nothing more: the
    effect of the second request on the database left by the first is
    the effect of the first. *)
Theorem edit_idempotent (req : Request EditForm) (db : Db) :
  post_edit parseInt req (db_after (post_edit parseInt req db))
  = post_edit parseInt req db.
Proof.
  unfold post_edit. rewrite !route_admin_cases.
  destruct (session req) as [u|]; [|reflexivity].
  destruct (Role_eqb (SessionUser.role u) ADMIN); [|reflexivity].
  unfold post_edit_handler. simpl. f_equal.
  unfold set_characters. simpl. f_equal.
  apply updateOne_idempotent; reflexivity.
Qed.

(** X14. After an administrator's edit the detail page of the edited
    id shows the first character of that id with the name, age,
    description and active flag of the form and everything else as
    stored; for an id that no character carries the edit stores nothing
    and the detail page stays 404. *)
Theorem edit_then_detail
        (req : Request EditForm) (db : Db) (B : Type) (view : Request B) :
  admin_session (session req) ->
  authenticated (session view) ->
  params_id view = params_id req ->
  let db' := db_after (post_edit parseInt req db) in
  (forall c, findOne (by_id (params_id req)) (characters db) = Some c ->
             reply (get_character view db')
             = RenderPage 200 (session view) (page_detail (edited req c))) /\
  (findOne (by_id (params_id req)) (characters db) = None ->
   db' = db /\
   reply (get_character view db') = Plain (Send 404 "Niet gevonden")).
Proof.
  intros (u & Hu & Hr) [v Hv] Hid. unfold post_edit.
  rewrite route_admin_cases, Hu, Hr. simpl.
  unfold get_character, get_character_handler. simpl. rewrite Hv, Hid. simpl.
  rewrite findOne_updateOne by reflexivity.
  split.
  - intros c ->. reflexivity.
  - intros Hnone. rewrite Hnone. simpl. split; [|reflexivity].
    apply Db_eq; simpl; trivial.
    clear - Hnone. rewrite findOne_none in Hnone.
    induction (characters db) as [|d col IH]; simpl; [reflexivity|].
    rewrite (Hnone d (or_introl eq_refl)). f_equal.
    apply IH. intros x Hx. apply Hnone. now right.
Qed.

(** X15. No edit request changes the ids of the characters or the
    units they embed, in any position: characters with pairwise
    different ids keep them, and the units page lists what it listed
    before. *)
Theorem edit_keeps_ids_and_units
        (req : Request EditForm) (db : Db) (B : Type) (view : Request B) :
  let db' := db_after (post_edit parseInt req db) in
  map Character.id (characters db') = map Character.id (characters db) /\
  map Character.unit (characters db') = map Character.unit (characters db) /\
  (NoDup (map Character.id (characters db)) ->
   NoDup (map Character.id (characters db'))) /\
  reply (get_units view db') = reply (get_units view db).
Proof.
  unfold post_edit. rewrite route_admin_cases.
  assert (Hgoal : forall chars',
             map Character.id chars' = map Character.id (characters db) ->
             map Character.unit chars' = map Character.unit (characters db) ->
             forall db', characters db' = chars' ->
             map Character.id (characters db') = map Character.id (characters db) /\
             map Character.unit (characters db') = map Character.unit (characters db) /\
             (NoDup (map Character.id (characters db)) ->
              NoDup (map Character.id (characters db'))) /\
             reply (get_units view db') = reply (get_units view db)).
  { intros chars' Hi Hun db' Hdb. subst chars'.
    repeat split; trivial; [congruence|].
    unfold get_units, route_page, get_units_handler, requireLogin.
    destruct (session view); cbn [reply]; [|reflexivity].
    now rewrite (uniqueUnits_of_units _ _ Hun). }
  destruct (session req) as [u|]; [|now apply (Hgoal (characters db))].
  destruct (Role_eqb (SessionUser.role u) ADMIN);
    [|now apply (Hgoal (characters db))].
  unfold post_edit_handler. cbn [db_after].
  apply (Hgoal (updateOne (by_id (params_id req)) (edited req) (characters db)));
    [now apply updateOne_map | now apply updateOne_map | reflexivity].
Qed.

End EditComposition.

Lemma edit_then_detail_witness :
  reply (get_character (mkRequest session_user "c1" no_query tt)
           (db_after (post_edit (fun _ => Js.Num 31)
                        (mkRequest session_admin "c1" no_query
                           (mkEditForm "Alfa" "31" "promoted" None))
                        db_scenario)))
  = RenderPage 200 session_user
      (page_detail
         (Character.mk (Some "65f000000000000000000001") "c1" "Alfa" (Js.Num 31)
            "promoted" false "Captain" "1990-01-01" "" ["M4"] unit_red)).
Proof.
  assert (Ha : admin_session session_admin)
    by now exists (SessionUser.mk (Some "65e000000000000000000001") "admin" ADMIN).
  assert (Hu : authenticated session_user)
    by now exists (SessionUser.mk (Some "65e000000000000000000002") "user" USER).
  pose proof (edit_then_detail (fun _ => Js.Num 31)
                (mkRequest session_admin "c1" no_query
                   (mkEditForm "Alfa" "31" "promoted" None))
                db_scenario Datatypes.unit (mkRequest session_user "c1" no_query tt)
                Ha Hu eq_refl) as (H & _).
  exact (H char_alpha eq_refl).
Defined.

Lemma edit_keeps_ids_and_units_witness :
  NoDup (map Character.id
           (characters
              (db_after (post_edit (fun _ => Js.NaN)
                           (mkRequest session_admin "c2" no_query
                              (mkEditForm "B" "x" "" (Some "true")))
                           db_scenario)))).
Proof.
  pose proof (edit_keeps_ids_and_units (fun _ => Js.NaN)
                (mkRequest session_admin "c2" no_query
                   (mkEditForm "B" "x" "" (Some "true")))
                db_scenario Datatypes.unit (mkRequest None "" no_query tt))
    as (_ & _ & H & _).
  apply H. simpl. repeat constructor; simpl; intuition discriminate.
Defined.

(** ** What no operation does *)

Section AppendOnly.

Variable hash : string -> nat -> string -> string.
Variable compare : string -> string -> bool.
Variable parseInt : string -> Js.number.

(** X16. Whatever writes to the database (login, registration, logout,
    edit, the seeder) only appends: the accounts before are a prefix of
    the accounts after, the ids of the characters before are a prefix
    of the ids after, and the emblems are never written. *)
Theorem nothing_is_deleted
        (env : SeedEnv) (e : Entropy) (login reg : Request Credentials)
        (edit : Request EditForm) (B : Type) (out : Request B) (db db' : Db) :
  db' = db_after (post_login compare login db) \/
  db' = db_after (post_register hash e reg db) \/
  db' = db_after (post_logout out db) \/
  db' = db_after (post_edit parseInt edit db) \/
  db' = connectAndSeedDatabase hash env db ->
  (exists added, users db' = users db ++ added) /\
  (exists more, map Character.id (characters db')
                = map Character.id (characters db) ++ more) /\
  emblems db' = emblems db.
Proof.
  assert (Hsame : forall d, users d = users db -> characters d = characters db ->
                            emblems d = emblems db ->
                            (exists added, users d = users db ++ added) /\
                            (exists more, map Character.id (characters d)
                                          = map Character.id (characters db) ++ more) /\
                            emblems d = emblems db).
  { intros d Hu Hc He. repeat split; trivial;
      exists []; rewrite app_nil_r; congruence. }
  intros [-> | [-> | [-> | [-> | ->]]]].
  - unfold post_login.
    destruct (findOne _ _) as [u|]; [destruct (compare _ _)|]; now apply Hsame.
  - unfold post_register. destruct (findOne _ _); [now apply Hsame|].
    simpl. unfold insertOne. repeat split; eauto.
    exists []. now rewrite app_nil_r.
  - now apply Hsame.
  - unfold post_edit. rewrite route_admin_cases.
    destruct (session edit) as [u|]; [|now apply Hsame].
    destruct (Role_eqb (SessionUser.role u) ADMIN); [|now apply Hsame].
    unfold post_edit_handler. simpl. repeat split.
    + exists []. now rewrite app_nil_r.
    + exists []. rewrite app_nil_r. now apply updateOne_map.
  - destruct (connect_ok env) eqn:Hc.
    + split; [|split].
      * rewrite (seed_users hash env db Hc). eauto.
      * rewrite (seed_characters hash env db Hc).
        destruct (characters db) as [|c col]; simpl.
        -- destruct (fetched env); simpl; eauto.
        -- exists []. now rewrite app_nil_r.
      * apply seed_emblems.
    + rewrite (seed_disconnected hash env db Hc). now apply Hsame.
Qed.

End AppendOnly.

Lemma nothing_is_deleted_witness :
  exists added,
    users (connectAndSeedDatabase toy_hash (seed_env None)
             (mkDb [account_user] [] []))
    = [account_user] ++ added.
Proof.
  apply (nothing_is_deleted toy_hash toy_compare (fun _ => Js.NaN)
           (seed_env None) (mkEntropy "" "")
           (mkRequest None "" no_query (mkCredentials "" ""))
           (mkRequest None "" no_query (mkCredentials "" ""))
           (mkRequest None "" no_query (mkEditForm "" "" "" None))
           Datatypes.unit (mkRequest None "" no_query tt)
           (mkDb [account_user] [] [])).
  right. right. right. right. reflexivity.
Defined.

(** ** The units page *)

Section MapProperties.

Context {V : Type}.

Local Abbreviation has_key k := (fun e : string * V => (fst e =? k)%string).

Lemma map_get_set_same (k : string) (v : V) (m : JsMap.t) :
  JsMap.get k (JsMap.set k v m) = Some v.
Proof.
  unfold JsMap.get. induction m as [|[k' v'] m IH]; simpl.
  - now rewrite String.eqb_refl.
  - destruct (String.eqb_spec k' k) as [->|Hk]; simpl.
    + now rewrite String.eqb_refl.
    + apply String.eqb_neq in Hk. now rewrite Hk.
Qed.

Lemma map_get_set_other (k k' : string) (v : V) (m : JsMap.t) :
  k' <> k -> JsMap.get k' (JsMap.set k v m) = JsMap.get k' m.
Proof.
  intros Hne. unfold JsMap.get. induction m as [|[k0 v0] m IH]; simpl.
  - apply not_eq_sym in Hne. apply String.eqb_neq in Hne. now rewrite Hne.
  - destruct (String.eqb_spec k0 k) as [->|Hk]; simpl.
    + apply not_eq_sym in Hne. apply String.eqb_neq in Hne. now rewrite Hne.
    + destruct (k0 =? k')%string; [reflexivity | exact IH].
Qed.

Lemma map_set_keys (k : string) (v : V) (m : JsMap.t (V := V)) :
  map fst (JsMap.set k v m)
  = map fst m ++ (if in_dec string_dec k (map fst m) then [] else [k]).
Proof.
  induction m as [|[k' v'] m IH]; simpl; [reflexivity|].
  destruct (String.eqb_spec k' k) as [->|Hk]; simpl.
  - destruct (string_dec k k); [|congruence]. now rewrite app_nil_r.
  - rewrite IH. destruct (string_dec k' k); [contradiction|].
    destruct (in_dec string_dec k (map fst m)); reflexivity.
Qed.

Lemma map_set_nodup (k : string) (v : V) (m : JsMap.t (V := V)) :
  NoDup (map fst m) -> NoDup (map fst (JsMap.set k v m)).
Proof.
  intros H. rewrite map_set_keys.
  destruct (in_dec string_dec k (map fst m)); [now rewrite app_nil_r|].
  now apply NoDup_snoc.
Qed.

Lemma map_get_in (k : string) (v : V) (m : JsMap.t) :
  NoDup (map fst m) ->
  (In (k, v) m <-> JsMap.get k m = Some v).
Proof.
  unfold JsMap.get. induction m as [|[k' v'] m IH]; simpl; intros Hnd.
  - split; [contradiction | discriminate].
  - inversion Hnd as [|? ? Hk' Hm]; subst.
    destruct (String.eqb_spec k' k) as [->|Hk]; simpl.
    + split.
      * intros [[= ->] | Hin]; [reflexivity|].
        exfalso. apply Hk'. apply in_map_iff. now exists (k, v).
      * intros [= ->]. now left.
    + rewrite <- (IH Hm). split; [intros [[= ? ?] | ?]; [contradiction | assumption]
                                 | now right].
Qed.

(** The map built from a list of entries: its keys are different, a key
    is present exactly when an entry has it, and its value is the value
    of the last such entry. *)
Lemma of_entries_from (es : list (string * V)) :
  forall m : JsMap.t,
    NoDup (map fst m) ->
    let r := fold_left (fun m e => JsMap.set (fst e) (snd e) m) es m in
    NoDup (map fst r) /\
    (forall k, JsMap.get k r =
               match findLast (has_key k) es with
               | Some e => Some (snd e)
               | None => JsMap.get k m
               end) /\
    (exists new, map fst r = map fst m ++ new).
Proof.
  induction es as [|[k v] es IH]; intros m Hm; simpl.
  - repeat split; trivial. exists []. now rewrite app_nil_r.
  - destruct (IH (JsMap.set k v m) (map_set_nodup k v m Hm)) as (Hnd & Hget & new & Hkeys).
    split; [exact Hnd|]. split.
    + intros k0. rewrite Hget. unfold findLast. simpl.
      rewrite findOne_app. destruct (findOne (has_key k0) (rev es)); [reflexivity|].
      simpl. destruct (String.eqb_spec k k0) as [->|Hk].
      * apply map_get_set_same.
      * apply map_get_set_other. congruence.
    + rewrite Hkeys, map_set_keys, <- app_assoc. eauto.
Qed.

End MapProperties.

Lemma findOne_map {A C : Type} (f : A -> C) (q : C -> bool) (l : list A) :
  findOne q (map f l) = option_map f (findOne (fun a => q (f a)) l).
Proof.
  unfold findOne. induction l as [|a l IH]; simpl; [reflexivity|].
  destruct (q (f a)); [reflexivity | exact IH].
Qed.

Lemma findLast_map {A C : Type} (f : A -> C) (q : C -> bool) (l : list A) :
  findLast q (map f l) = option_map f (findLast (fun a => q (f a)) l).
Proof.
  unfold findLast. rewrite <- map_rev. apply findOne_map.
Qed.

Lemma findLast_some {A : Type} (q : A -> bool) (l : list A) (d : A) :
  findLast q l = Some d ->
  exists before after,
    l = before ++ d :: after /\ q d = true /\
    forall x, In x after -> q x = false.
Proof.
  unfold findLast. intros H.
  apply findOne_some in H as (b & a & Hrev & Hq & Hb).
  exists (rev a), (rev b). repeat split; trivial.
  - rewrite <- (rev_involutive l), Hrev, rev_app_distr. simpl.
    now rewrite <- app_assoc.
  - intros x Hx. apply Hb. now apply in_rev.
Qed.

Lemma findLast_none {A : Type} (q : A -> bool) (l : list A) :
  findLast q l = None <-> forall d, In d l -> q d = false.
Proof.
  unfold findLast. rewrite findOne_none. split; intros H d Hd; apply H.
  - now apply in_rev in Hd.
  - now apply in_rev.
Qed.

(** The entries the units page puts into its map. *)
Lemma unit_entries_get (chars : list Character.t) (k : string) :
  JsMap.get k (JsMap.of_entries
                 (map (fun c => (Unit.id (Character.unit c), Character.unit c)) chars))
  = option_map Character.unit (findLast (in_unit k) chars).
Proof.
  unfold JsMap.of_entries.
  destruct (of_entries_from
              (map (fun c => (Unit.id (Character.unit c), Character.unit c)) chars)
              [] (NoDup_nil _)) as (_ & Hget & _).
  rewrite Hget, findLast_map. unfold in_unit.
  destruct (findLast _ chars); reflexivity.
Qed.

Lemma unit_entries_keys (chars : list Character.t) :
  let m := JsMap.of_entries
             (map (fun c => (Unit.id (Character.unit c), Character.unit c)) chars) in
  NoDup (map fst m) /\ map fst m = map Unit.id (map snd m).
Proof.
  intros m.
  destruct (of_entries_from
              (map (fun c => (Unit.id (Character.unit c), Character.unit c)) chars)
              [] (NoDup_nil _)) as (Hnd & _ & _).
  fold (JsMap.of_entries
          (map (fun c => (Unit.id (Character.unit c), Character.unit c)) chars)) in Hnd.
  fold m in Hnd. split; [exact Hnd|].
  assert (Hall : forall e, In e m -> fst e = Unit.id (snd e)).
  { intros [k u] Hin. apply (map_get_in k u m Hnd) in Hin.
    unfold m in Hin. rewrite unit_entries_get in Hin.
    destruct (findLast (in_unit k) chars) as [c|] eqn:Hc; [|discriminate].
    injection Hin as <-. apply findLast_some in Hc as (_ & _ & _ & Hq & _).
    unfold in_unit in Hq. apply String.eqb_eq in Hq. simpl. congruence. }
  rewrite map_map. apply map_ext_in. exact Hall.
Qed.

(** The units of the page have different ids, and a unit is listed
    exactly when it is the copy of the last character of its id. *)
Lemma units_listing_helper (chars : list Character.t) :
  NoDup (map Unit.id (uniqueUnits chars)) /\
  (forall u, In u (uniqueUnits chars) <->
             exists c, findLast (in_unit (Unit.id u)) chars = Some c /\
                       Character.unit c = u).
Proof.
  unfold uniqueUnits, JsMap.values.
  set (m := JsMap.of_entries
              (map (fun c => (Unit.id (Character.unit c), Character.unit c)) chars)).
  destruct (unit_entries_keys chars) as [Hnd Hkeys]. fold m in Hnd, Hkeys.
  split; [now rewrite <- Hkeys|].
  intros u. rewrite in_map_iff. split.
  - intros ([k u'] & Hu & Hin). simpl in Hu. subst u'.
    assert (Hk : k = Unit.id u).
    { pose proof (map_get_in k u m Hnd) as Hiff. apply Hiff in Hin.
      unfold m in Hin. rewrite unit_entries_get in Hin.
      destruct (findLast (in_unit k) chars) as [c|] eqn:Hc; [|discriminate].
      injection Hin as <-. apply findLast_some in Hc as (_ & _ & _ & Hq & _).
      unfold in_unit in Hq. apply String.eqb_eq in Hq. congruence. }
    subst k. apply (map_get_in _ u m Hnd) in Hin.
    unfold m in Hin. rewrite unit_entries_get in Hin.
    destruct (findLast (in_unit (Unit.id u)) chars) as [c|]; [|discriminate].
    injection Hin as Hc. now exists c.
  - intros (c & Hc & Hu). exists (Unit.id u, u). split; [reflexivity|].
    apply (map_get_in _ u m Hnd). unfold m. rewrite unit_entries_get, Hc.
    simpl. congruence.
Qed.

(** X17. The units page lists every unit id that some character embeds
    exactly once; the unit shown for an id is the copy embedded in the
    last character of that unit; and there are never more units than
    characters. *)
Theorem units_listing_last_wins (chars : list Character.t) :
  let units := uniqueUnits chars in
  NoDup (map Unit.id units) /\
  (forall i, In i (map Unit.id units) <->
             exists c, In c chars /\ Unit.id (Character.unit c) = i) /\
  (forall u, In u units <->
             exists c, findLast (in_unit (Unit.id u)) chars = Some c /\
                       Character.unit c = u) /\
  (List.length units <= List.length chars)%nat.
Proof.
  intros units. unfold units.
  destruct (units_listing_helper chars) as [Hnd Hmem].
  split; [exact Hnd|]. split; [|split; [exact Hmem|]].
  - intros i. rewrite in_map_iff. split.
    + intros (u & Hi & Hu). apply Hmem in Hu as (c & Hc & Hcu).
      apply findLast_some in Hc as (b & a & -> & _ & _).
      exists c. split; [apply in_or_app; right; now left | congruence].
    + intros (c & Hin & Hi).
      destruct (findLast (in_unit i) chars) as [c'|] eqn:Hc'.
      * exists (Character.unit c').
        apply findLast_some in Hc' as Hsome. destruct Hsome as (_ & _ & _ & Hq & _).
        unfold in_unit in Hq. apply String.eqb_eq in Hq.
        split; [exact Hq|]. apply Hmem. exists c'. split; [|reflexivity].
        now rewrite Hq.
      * exfalso. rewrite findLast_none in Hc'. specialize (Hc' c Hin).
        unfold in_unit in Hc'. apply String.eqb_neq in Hc'. contradiction.
  - rewrite <- (length_map Unit.id (uniqueUnits chars)).
    rewrite <- (length_map (fun c => Unit.id (Character.unit c)) chars).
    apply NoDup_incl_length; [exact Hnd|].
    intros k Hk. apply in_map_iff in Hk as (u & <- & Hu).
    apply Hmem in Hu as (c & Hc & <-).
    apply findLast_some in Hc as (b & a & -> & _ & _).
    apply in_map_iff. exists c. split; [reflexivity|].
    apply in_or_app. right. now left.
Qed.

Example units_of_three :
  uniqueUnits [char_alpha; char_beta; char_gamma] = [unit_red_renamed; unit_blue].
Proof. reflexivity. Qed.

(** X18. For a unit without emblem record the units page and the unit
    detail page read different copies: the page lists the unit embedded
    in the last member, the detail shows the unit embedded in the first
    member.  The two pages agree when all members embed the same
    copy. *)
Theorem units_page_and_detail_copies
        (B : Type) (req : Request B) (db : Db) (first last : Character.t) :
  let unitId := params_id req in
  let members := filter (in_unit unitId) (characters db) in
  findOne (emblem_by_id unitId) (emblems db) = None ->
  findOne (in_unit unitId) (characters db) = Some first ->
  findLast (in_unit unitId) (characters db) = Some last ->
  response (get_unit_handler req db)
  = Render 200 (session req)
           (view_unit_detail (OfMember (Character.unit first)) members) /\
  In (Character.unit last) (uniqueUnits (characters db)) /\
  (forall u, In u (uniqueUnits (characters db)) -> Unit.id u = unitId ->
             u = Character.unit last) /\
  ((forall c, In c members -> Character.unit c = Character.unit first) ->
   Character.unit last = Character.unit first).
Proof.
  intros unitId members Hemblem Hfirst Hlast.
  destruct (units_listing_helper (characters db)) as [Hnd Hmem].
  apply findLast_some in Hlast as Hl. destruct Hl as (b & a & Hcol & Hq & _).
  unfold in_unit in Hq. apply String.eqb_eq in Hq.
  split; [|split; [|split]].
  - unfold get_unit_handler. fold unitId. fold members. rewrite Hemblem.
    rewrite findOne_filter_head in Hfirst. fold members in Hfirst.
    destruct members as [|m ms]; simpl in *; [discriminate|].
    now injection Hfirst as ->.
  - apply Hmem. exists last. split; [|reflexivity]. now rewrite Hq.
  - intros u Hu Hid. apply Hmem in Hu as (c & Hc & <-).
    rewrite Hid in Hc. congruence.
  - intros Hsame. apply Hsame. unfold members. apply filter_In. split.
    + rewrite Hcol. apply in_or_app. right. now left.
    + unfold in_unit. now apply String.eqb_eq.
Qed.

Lemma units_page_and_detail_copies_witness :
  response (get_unit_handler (mkRequest session_user "u1" no_query tt)
              (mkDb [] [char_alpha; char_beta; char_gamma] []))
  = Render 200 session_user
           (view_unit_detail (OfMember unit_red) [char_alpha; char_gamma]) /\
  In unit_red_renamed (uniqueUnits [char_alpha; char_beta; char_gamma]).
Proof.
  pose proof (units_page_and_detail_copies Datatypes.unit
                (mkRequest session_user "u1" no_query tt)
                (mkDb [] [char_alpha; char_beta; char_gamma] [])
                char_alpha char_gamma eq_refl eq_refl eq_refl)
    as (Hdetail & Hlisted & _).
  split; [exact Hdetail | exact Hlisted].
Defined.

(** ** The character pages *)

(** X19. The detail page answers 404 exactly when no character carries
    the requested id; what it shows otherwise is a stored character of
    that id, the first in the collection; the edit form shows the same
    character; and when the ids are pairwise different every stored
    character is the one shown for its own id. *)
Theorem character_detail_by_id (B : Type) (req : Request B) (db : Db) :
  let r := reply (get_character_handler req db) in
  (r = Plain (Send 404 "Niet gevonden") <->
   forall c, In c (characters db) -> Character.id c <> params_id req) /\
  (forall st u c,
      r = RenderPage st u (page_detail c) ->
      st = 200%nat /\ u = session req /\
      Character.id c = params_id req /\
      exists before after,
        characters db = before ++ c :: after /\
        forall x, In x before -> Character.id x <> params_id req) /\
  (forall c, r = RenderPage 200 (session req) (page_detail c) <->
             reply (get_edit_handler req db)
             = RenderPage 200 (session req) (page_edit c)) /\
  (NoDup (map Character.id (characters db)) ->
   forall c, In c (characters db) -> Character.id c = params_id req ->
             r = RenderPage 200 (session req) (page_detail c)).
Proof.
  intros r. subst r. unfold get_character_handler, get_edit_handler.
  destruct (findOne (by_id (params_id req)) (characters db)) as [d|] eqn:Hfind; simpl.
  - apply findOne_some in Hfind as Hsome.
    destruct Hsome as (before & after & Hcol & Hq & Hb).
    unfold by_id in Hq, Hb. apply String.eqb_eq in Hq.
    split; [|split; [|split]].
    + split; [discriminate|]. intros H. exfalso. apply (H d); [|exact Hq].
      rewrite Hcol. apply in_or_app. right. now left.
    + intros st u c [= <- <- <-]. repeat split; trivial.
      exists before, after. split; [exact Hcol|].
      intros x Hx. apply String.eqb_neq. auto.
    + intros c. split; intros [= <-]; reflexivity.
    + intros Hnd c Hin Hid. do 2 f_equal.
      rewrite Hcol in Hnd, Hin. rewrite map_app in Hnd. simpl in Hnd.
      apply in_app_or in Hin as [Hin | [Hin | Hin]]; [|exact Hin|].
      * specialize (Hb c Hin). apply String.eqb_neq in Hb. contradiction.
      * exfalso. apply NoDup_remove_2 in Hnd. apply Hnd.
        apply in_or_app. right. apply in_map_iff. exists c. split; [congruence | exact Hin].
  - rewrite findOne_none in Hfind. unfold by_id in Hfind.
    split; [|split; [|split]].
    + split; [|reflexivity]. intros _ c Hin. apply String.eqb_neq. auto.
    + intros st u c H. discriminate.
    + intros c. split; discriminate.
    + intros _ c Hin Hid. specialize (Hfind c Hin).
      apply String.eqb_neq in Hfind. contradiction.
Qed.

Lemma character_detail_by_id_witness :
  reply (get_character_handler (mkRequest session_user "c2" no_query tt) db_scenario)
  = RenderPage 200 session_user (page_detail char_beta).
Proof.
  pose proof (character_detail_by_id Datatypes.unit
                (mkRequest session_user "c2" no_query tt) db_scenario)
    as (_ & _ & _ & H).
  apply H; [|right; left; reflexivity | reflexivity].
  simpl. repeat constructor; simpl; intuition discriminate.
Defined.

(** ** The listing as a whole *)

Lemma ci_eq_empty (s : string) : ci_eq s "" -> s = ""%string.
Proof. inversion 1. reflexivity. Qed.

Lemma ci_eq_sym (s t : string) : ci_eq s t -> ci_eq t s.
Proof. rewrite !ci_eq_lower. auto. Qed.

Lemma contains_ci_refl (s : string) : contains_ci s s.
Proof.
  exists ""%string, s, ""%string. split.
  - simpl. now rewrite string_append_empty.
  - apply ci_eq_lower. reflexivity.
Qed.

Section ListingProperties.

Context {U : Js.Unicode}.

Variable StringToNumber : string -> Js.number.

Lemma lower_contains_trans (name s t : string) :
  lower_contains name s -> lower_contains s t -> lower_contains name t.
Proof.
  intros (p & q & Hn) (p' & q' & Hs).
  exists (p ++ p')%string, (q' ++ q)%string.
  rewrite Hn, Hs. now rewrite !string_append_assoc.
Qed.

Lemma lower_contains_refl (s : string) : lower_contains s s.
Proof.
  exists ""%string, ""%string. simpl. now rewrite string_append_empty.
Qed.



End ListingProperties.


(** X21. The search ignores the letter case of the search string: two
    search strings that are equal up to case select the same records. *)
Theorem search_ignores_case_of_query {U : Js.Unicode}
        (s s' : string) (C : list Character.t) :
  ci_eq s s' -> filter_step s C = filter_step s' C.
Proof.
  intros H. unfold filter_step.
  pose proof (toLowerCase_ci_eq s s' H) as Hlow.
  destruct (String.eqb_spec s "") as [->|Hs].
  - apply ci_eq_sym, ci_eq_empty in H. now subst.
  - destruct (String.eqb_spec s' "") as [->|Hs'].
    + apply ci_eq_empty in H. contradiction.
    + now rewrite Hlow.
Qed.

Lemma search_ignores_case_of_query_witness :
  filter_step "BeT" [char_alpha; char_beta] = filter_step "bEt" [char_alpha; char_beta].
Proof.
  apply search_ignores_case_of_query.
  constructor; [right; left; unfold capital; cbv; lia|].
  constructor; [right; right; unfold capital; cbv; lia|].
  constructor; [right; left; unfold capital; cbv; lia|].
  constructor.
Defined.

(** X22. A longer search string never selects more: when the
    lower-cased [s'] includes the lower-cased [s], as it does when the
    two are ASCII and [s'] contains [s] up to case, every record
    selected by [s'] is selected by [s].  And a stored character is
    always selected by its own name. *)
Theorem search_narrows {U : Js.Unicode} (s s' : string) (C : list Character.t) :
  lower_contains s' s \/ (all_ascii s /\ all_ascii s' /\ contains_ci s' s) ->
  (forall c, In c (filter_step s' C) -> In c (filter_step s C)) /\
  (forall c, In c C -> In c (filter_step (Character.name c) C)).
Proof.
  intros Hs.
  assert (Hlow : lower_contains s' s).
  { destruct Hs as [Hs | (Ha & Ha' & Hs)]; [exact Hs|].
    now apply lower_contains_ascii. }
  split.
  - intros c. rewrite !filter_step_In. intros [Hin Hc]. split; [exact Hin|].
    now apply (lower_contains_trans _ s').
  - intros c Hin. apply filter_step_In. split; [exact Hin | apply lower_contains_refl].
Qed.

Lemma search_narrows_witness :
  In char_beta (filter_step "E" [char_alpha; char_beta]) /\
  In char_sigma (filter_step "Α" [char_sigma; char_elan]).
Proof.
  assert (H : contains_ci "bet" "E").
  { exists "b"%string, "e"%string, "t"%string. split; [reflexivity|].
    constructor; [|constructor].
    right. right. unfold capital. cbv. lia. }
  assert (H' : lower_contains "ΑΣ" "Α").
  { exists ""%string, "ς"%string. reflexivity. }
  split.
  - assert (Hascii : lower_contains "bet" "E" \/
                     (all_ascii "E" /\ all_ascii "bet" /\ contains_ci "bet" "E")).
    { right. split; [repeat split|]. split; [repeat split | exact H]. }
    apply (proj1 (search_narrows "E" "bet" [char_alpha; char_beta] Hascii)).
    change (In char_beta [char_beta]). now left.
  - apply (proj1 (search_narrows "Α" "ΑΣ" [char_sigma; char_elan] (or_introl H'))).
    change (In char_sigma [char_sigma]). now left.
Defined.

(** Beyond ASCII a part of a search string may select less than the
    whole: the sigma that ends a word is lower-cased to its final
    form. *)
Example search_narrows_not_for_final_sigma :
  In char_sigma (filter_step "ΑΣ" [char_sigma; char_elan]) /\
  ~ In char_sigma (filter_step "Σ" [char_sigma; char_elan]).
Proof.
  split; [now left|]. intros H. vm_compute in H. exact H.
Qed.

(** ** Sort field and direction *)

Lemma permutation_filter {A : Type} (p : A -> bool) (l l' : list A) :
  Permutation l l' -> Permutation (filter p l) (filter p l').
Proof.
  induction 1 as [| x l l' _ IH | x y l | l l' l'' _ IH1 _ IH2]; simpl.
  - constructor.
  - destruct (p x); [now constructor | exact IH].
  - destruct (p x), (p y); try reflexivity. apply perm_swap.
  - now transitivity (filter p l').
Qed.

Lemma class_at_most_one (f : string) (x : Character.t) (l : list Character.t) :
  NoDup (map (primitive_key f) l) ->
  (List.length (filter (same_key f x) l) <= 1)%nat.
Proof.
  induction l as [|c l IH]; simpl; intros Hnd; [lia|].
  inversion Hnd as [|? ? Hc Hl]; subst. specialize (IH Hl).
  destruct (same_key f x c) eqn:Hxc; [|exact IH]. simpl.
  assert (Hnone : filter (same_key f x) l = []).
  { destruct (filter (same_key f x) l) as [|d ds] eqn:Hf; [reflexivity|].
    exfalso. assert (Hd : In d (filter (same_key f x) l)) by (rewrite Hf; now left).
    apply filter_In in Hd as [Hin Hxd].
    unfold same_key in Hxc, Hxd. apply value_eqb_eq in Hxc, Hxd.
    apply Hc. apply in_map_iff. exists d. unfold primitive_key. split; congruence. }
  rewrite Hnone. simpl. lia.
Qed.

Section SortDirection.

Context {U : Js.Unicode}.

Variable StringToNumber : string -> Js.number.

Lemma comparator_flip (f : string) (o : Z) (a b : Character.t) :
  comparator StringToNumber f (- o) a b = comparator StringToNumber f o b a.
Proof.
  unfold comparator, Js.gt.
  destruct (Js.lt StringToNumber (sort_value f a) (sort_value f b)) eqn:Hab.
  - rewrite (js_lt_asym _ _ _ Hab). lia.
  - destruct (Js.lt StringToNumber (sort_value f b) (sort_value f a)); lia.
Qed.

(** X23. A sort parameter that names no property of a character leaves
    the records in their stored order, in either direction; with no
    search string the listing then shows the collection as stored. *)
Theorem unknown_sort_field_keeps_order
        (f : string) (o : Z) (l : list Character.t)
        (B : Type) (req : Request B) (db : Db) :
  ~ In f character_keys ->
  sort_step StringToNumber f o l = l /\
  (f <> ""%string ->
   authenticated (session req) ->
   q_sort (query req) = Some f -> q_search (query req) = None ->
   exists sortOrder,
     response (get_characters StringToNumber req db)
     = Render 200 (session req) (view_index (characters db) "" f sortOrder)).
Proof.
  intros Hf.
  assert (Hkey : forall c, sort_value f c = Js.VUndefined).
  { intros c. unfold sort_value, Character.get.
    repeat match goal with
           | |- context [(f =? ?k)%string] =>
               destruct (String.eqb_spec f k) as [->|_];
               [exfalso; apply Hf; simpl; tauto|]
           end.
    reflexivity. }
  assert (Hsort : forall o' l', sort_step StringToNumber f o' l' = l').
  { intros o' l'. unfold sort_step.
    apply sort_fixes_sorted; [apply comparator_antisym|].
    apply sorted_when_all_tie. intros a b. unfold comparator, Js.gt.
    rewrite !Hkey. simpl. lia. }
  split; [apply Hsort|].
  intros Hne [u Hu] Hq Hs.
  unfold get_characters, get_characters_handler. simpl. rewrite Hu, Hq, Hs. simpl.
  apply String.eqb_neq in Hne. rewrite Hne. unfold filter_step. simpl.
  rewrite Hsort. eauto.
Qed.

(** X24. When the keys of the records are of one kind, without NaN,
    and pairwise different, the descending order is the reverse of the
    ascending order. *)
Theorem descending_is_reverse
        (f : string) (o : Z) (k : kind) (l : list Character.t) :
  o <> 0%Z ->
  Forall (key_of_kind f k) l ->
  NoDup (map (primitive_key f) l) ->
  sort_step StringToNumber f (- o) l = rev (sort_step StringToNumber f o l).
Proof.
  intros Ho Hk Hnd. symmetry.
  apply (sort_step_unique StringToNumber f (- o) k); [lia | exact Hk | |].
  - unfold sorted_by.
    pose proof (sort_sorted (comparator StringToNumber f o)
                            (comparator_antisym StringToNumber f o) l) as Hs.
    apply sorted_rev in Hs. unfold sort_step.
    eapply Sorted_ind with (P := fun m => Sorted _ m); [| |exact Hs].
    + constructor.
    + intros a m Hm IH Ha. constructor; [exact IH|].
      destruct Ha as [|b m' Hab]; constructor.
      now rewrite comparator_flip.
  - intros x.
    assert (Hperm : Permutation (rev (sort_step StringToNumber f o l)) l).
    { rewrite <- Permutation_rev. apply sort_permutation. }
    apply (permutation_filter (same_key f x)) in Hperm.
    pose proof (class_at_most_one f x l Hnd) as Hlen.
    destruct (filter (same_key f x) l) as [|c [|d ds]]; simpl in Hlen; [| |lia].
    + apply Permutation_sym, Permutation_nil in Hperm. exact Hperm.
    + apply Permutation_sym, Permutation_length_1_inv in Hperm. exact Hperm.
Qed.

End SortDirection.

Lemma unknown_sort_field_keeps_order_witness :
  sort_step no_number "power" (-1) [char_beta; char_alpha] = [char_beta; char_alpha].
Proof.
  apply (unknown_sort_field_keeps_order no_number "power" (-1) [char_beta; char_alpha]
           Datatypes.unit (mkRequest None "" no_query tt) db_empty).
  unfold character_keys. simpl. intuition discriminate.
Defined.

Lemma descending_is_reverse_witness :
  sort_step no_number "age" (-1) [char_alpha; char_beta]
  = rev (sort_step no_number "age" 1 [char_alpha; char_beta]).
Proof.
  apply (descending_is_reverse no_number "age" 1 KNumber [char_alpha; char_beta]).
  - discriminate.
  - repeat constructor.
  - repeat constructor; simpl; intuition discriminate.
Defined.

(** With equal keys the descending order is not the reverse: ties keep
    the stored order in both directions. *)
Example descending_with_ties :
  sort_step no_number "description" 1 [char_alpha; char_beta] = [char_alpha; char_beta] /\
  sort_step no_number "description" (-1) [char_alpha; char_beta] = [char_alpha; char_beta].
Proof. split; reflexivity. Qed.
